(** * Real-time audio core of the interview simulator

    A shallow embedding of the audio codec helpers and the Gemini Live
    session callbacks ([src/services/geminiLive.ts]) and of the playback
    scheduler hook [useAudioPlayer] ([src/hooks/useAudioProcessor.ts]),
    with the properties its design document states about them.  Further
    parts cover the capture hook [useAudioProcessor] of the same file, the
    opening of the session ([connect]), and the callbacks by which the
    application ([src/unnamed/part_001]) joins capture, session and
    scheduler.

    Conventions.
    - A JavaScript exception is a value of [exn]; a call that may throw
      returns an [outcome].  Code that mutates refs or talks to the platform
      runs in the monad [M], which threads the mutable world and keeps the
      mutations made before a throw, as JavaScript does.
    - Strings that travel through [btoa]/[atob] are binary strings (every
      code unit below 256): they are [string]s, one [ascii] per code unit.
    - The elements of a [Float32Array] are written sign * significand * 2^e
      ([number]); clock readings and durations of the Web Audio API are
      binary64 values ([float]). *)

From Stdlib Require Import ZArith NArith List String Ascii Bool Lia.
From Stdlib.Strings Require Import Byte.
From Stdlib Require Import QArith Qminmax Qround Qabs Lqa.
From Stdlib Require Import Floats.
Import ListNotations.

Set Warnings "-inexact-float".
Local Open Scope list_scope.

(* ================================================================== *)
(** * JavaScript control effects                                        *)
(* ================================================================== *)

Module Js.

(** The exceptions the modelled calls can raise. *)
Inductive exn : Type :=
| InvalidCharacterError   (* atob on text that is not base64 *)
| RangeError              (* typed-array view over a buffer of the wrong size *)
| NotSupportedError       (* createBuffer with an unsupported length or rate *)
| InvalidStateError       (* stop() on a unit the platform refuses to halt *)
| TransportError (reason : string).

Inductive outcome (A : Type) : Type :=
| Return (a : A)
| Throw (e : exn).
Arguments Return {A} a.
Arguments Throw {A} e.

(** A computation over a mutable world [W]. *)
Definition M (W A : Type) : Type := W -> outcome A * W.

Definition ret {W A} (a : A) : M W A := fun w => (Return a, w).
Definition throw {W A} (e : exn) : M W A := fun w => (Throw e, w).
Definition bind {W A B} (c : M W A) (k : A -> M W B) : M W B :=
  fun w =>
    match c w with
    | (Return a, w') => k a w'
    | (Throw e, w') => (Throw e, w')
    end.
Definition get {W} : M W W := fun w => (Return w, w).
Definition modify {W} (f : W -> W) : M W unit := fun w => (Return tt, f w).
(** [try { c } catch (e) { h e }] *)
Definition try_catch {W A} (c : M W A) (h : exn -> M W A) : M W A :=
  fun w =>
    match c w with
    | (Return a, w') => (Return a, w')
    | (Throw e, w') => h e w'
    end.
(** Lifting of a pure call that may throw. *)
Definition lift {W A} (o : outcome A) : M W A := fun w => (o, w).

(** [xs.forEach(f)] *)
Fixpoint forEach {W A} (f : A -> M W unit) (xs : list A) : M W unit :=
  match xs with
  | [] => ret tt
  | x :: rest => bind (f x) (fun _ => forEach f rest)
  end.

Definition exec {W A} (c : M W A) (w : W) : W := snd (c w).
Definition result {W A} (c : M W A) (w : W) : outcome A := fst (c w).

End Js.

Import Js.

Declare Scope js_scope.
Delimit Scope js_scope with js.
Notation "x <- c ;; k" := (bind c (fun x => k))
  (at level 61, c at next level, right associativity) : js_scope.
Notation "c ;;; k" := (bind c (fun _ => k))
  (at level 61, right associativity) : js_scope.

(* ================================================================== *)
(** * Base64: the platform's [btoa] and [atob]                          *)
(* ================================================================== *)

(** [btoa] and [atob] are browser built-ins.  [btoa] is the base64 encoding
    of RFC 4648 section 4; [atob] is the "forgiving-base64 decode" of the
    WHATWG Infra standard.  Both are written here over code units. *)

Module Base64.

Local Open Scope N_scope.

(** RFC 4648, table 1. *)
Definition alphabet : string :=
  "ABCDEFGHIJKLMNOPQRSTUVWXYZabcdefghijklmnopqrstuvwxyz0123456789+/".

Definition char_of_sextet (n : N) : ascii :=
  nth (N.to_nat n) (list_ascii_of_string alphabet) "A"%char.

Definition sextet_of_char (c : ascii) : option N :=
  let n := N_of_ascii c in
  if (65 <=? n) && (n <=? 90) then Some (n - 65)
  else if (97 <=? n) && (n <=? 122) then Some (n - 71)
  else if (48 <=? n) && (n <=? 57) then Some (n + 4)
  else if n =? 43 then Some 62
  else if n =? 47 then Some 63
  else None.

Definition pad : ascii := "="%char.

(** Three input bytes form a 24-bit group, read as four 6-bit groups. *)
Definition group24 (a b c : N) : N := a * 65536 + b * 256 + c.

Definition sextet (g : N) (i : N) : N := (g / 64 ^ (3 - i)) mod 64.

(** The encoding of a byte sequence, with the final quantum padded. *)
Fixpoint encode (bs : list N) : list ascii :=
  match bs with
  | a :: b :: c :: rest =>
      let g := group24 a b c in
      char_of_sextet (sextet g 0) :: char_of_sextet (sextet g 1)
        :: char_of_sextet (sextet g 2) :: char_of_sextet (sextet g 3)
        :: encode rest
  | [a; b] =>
      let g := group24 a b 0 in
      [char_of_sextet (sextet g 0); char_of_sextet (sextet g 1);
       char_of_sextet (sextet g 2); pad]
  | [a] =>
      let g := group24 a 0 0 in
      [char_of_sextet (sextet g 0); char_of_sextet (sextet g 1); pad; pad]
  | [] => []
  end.

(** The 6-bit groups of a byte sequence before padding: four per full
    quantum, three or two for a final quantum of two or one bytes. *)
Fixpoint sextets (bs : list N) : list N :=
  match bs with
  | a :: b :: c :: rest =>
      let g := group24 a b c in
      sextet g 0 :: sextet g 1 :: sextet g 2 :: sextet g 3 :: sextets rest
  | [a; b] =>
      let g := group24 a b 0 in [sextet g 0; sextet g 1; sextet g 2]
  | [a] =>
      let g := group24 a 0 0 in [sextet g 0; sextet g 1]
  | [] => []
  end.

Definition btoa (binary : string) : string :=
  string_of_list_ascii (encode (map N_of_ascii (list_ascii_of_string binary))).

(** ASCII whitespace: TAB, LF, FF, CR and SPACE. *)
Definition is_ascii_whitespace (c : ascii) : bool :=
  let n := N_of_ascii c in
  (n =? 9) || (n =? 10) || (n =? 12) || (n =? 13) || (n =? 32).

(** Removal of one or two trailing [=]. *)
Fixpoint strip_padding (data : list ascii) : list ascii :=
  match data with
  | [] => []
  | c :: rest =>
      match rest with
      | [] => if Ascii.eqb c pad then [] else [c]
      | [d] => if Ascii.eqb c pad && Ascii.eqb d pad then []
               else c :: strip_padding rest
      | _ => c :: strip_padding rest
      end
  end.

(** Every code point must be in the alphabet. *)
Fixpoint sextets_of_chars (data : list ascii) : option (list N) :=
  match data with
  | [] => Some []
  | c :: rest =>
      match sextet_of_char c, sextets_of_chars rest with
      | Some n, Some ns => Some (n :: ns)
      | _, _ => None
      end
  end.

(** The bit buffer, emptied every 24 bits; a remainder of 18 or 12 bits
    loses its last 2 or 4 bits. *)
Fixpoint decode (ns : list N) : list N :=
  match ns with
  | s0 :: s1 :: s2 :: s3 :: rest =>
      let g := ((s0 * 64 + s1) * 64 + s2) * 64 + s3 in
      g / 65536 :: (g / 256) mod 256 :: g mod 256 :: decode rest
  | [s0; s1; s2] =>
      let g := (((s0 * 64 + s1) * 64 + s2) / 4) in
      [g / 256; g mod 256]
  | [s0; s1] =>
      [(s0 * 64 + s1) / 16]
  | _ => []
  end.

Definition atob (text : string) : outcome string :=
  let data := filter (fun c => negb (is_ascii_whitespace c))
                     (list_ascii_of_string text) in
  let data := if (N.of_nat (List.length data)) mod 4 =? 0
              then strip_padding data else data in
  if (N.of_nat (List.length data)) mod 4 =? 1 then Throw InvalidCharacterError
  else
    match sextets_of_chars data with
    | None => Throw InvalidCharacterError
    | Some ns => Return (string_of_list_ascii (map ascii_of_N (decode ns)))
    end.

End Base64.

(* ================================================================== *)
(** * PCM codec ([src/services/geminiLive.ts], "Audio Helpers")         *)
(* ================================================================== *)

Module Codec.

Local Open Scope Z_scope.

(** ** Numbers held by a [Float32Array]

    A finite binary32 value is [m * 2^e] with [|m| < 2^24] and
    [-149 <= e <= 104].  JavaScript computes on it in binary64; every
    operation [float32ToInt16] performs (comparison, and one product by
    [0x8000] or [0x7FFF]) is exact there, see [product_fits_binary64], so
    the arithmetic below is the exact one on [m] and [e]. *)
Inductive number : Type :=
| NaN
| Infinity (negative : bool)
| Dyadic (m : Z) (e : Z).

Definition is_float32 (x : number) : Prop :=
  match x with
  | Dyadic m e => Z.abs m < 2 ^ 24 /\ -149 <= e <= 104
  | _ => True
  end.

Definition of_int (k : Z) : number := Dyadic k 0.

(** [x < y] on numbers; false when either side is NaN. *)
Definition ltb (x y : number) : bool :=
  match x, y with
  | NaN, _ | _, NaN => false
  | Infinity a, Infinity b => a && negb b
  | Infinity a, Dyadic _ _ => a
  | Dyadic _ _, Infinity b => negb b
  | Dyadic m1 e1, Dyadic m2 e2 =>
      let e := Z.min e1 e2 in
      m1 * 2 ^ (e1 - e) <? m2 * 2 ^ (e2 - e)
  end.

Definition Math_min (x y : number) : number :=
  match x, y with
  | NaN, _ | _, NaN => NaN
  | _, _ => if ltb y x then y else x
  end.

Definition Math_max (x y : number) : number :=
  match x, y with
  | NaN, _ | _, NaN => NaN
  | _, _ => if ltb x y then y else x
  end.

(** [s * k] for a positive integer constant [k]. *)
Definition mul_const (s : number) (k : Z) : number :=
  match s with
  | NaN => NaN
  | Infinity neg => Infinity neg
  | Dyadic m e => Dyadic (m * k) e
  end.

(** Storing a number into an [Int16Array] element (ECMAScript ToInt16):
    NaN and the infinities become 0, anything else is truncated toward
    zero and reduced modulo 2^16 into [-2^15, 2^15). *)
Definition truncate (m e : Z) : Z :=
  if 0 <=? e then m * 2 ^ e else Z.quot m (2 ^ (- e)).

Definition wrap16 (n : Z) : Z := (n + 32768) mod 65536 - 32768.

Definition ToInt16 (v : number) : Z :=
  match v with
  | Dyadic m e => wrap16 (truncate m e)
  | _ => 0
  end.

(** The clamped sample of line 98 and the scaled value of line 99. *)
Definition clamp (x : number) : number :=
  Math_max (of_int (-1)) (Math_min (of_int 1) x).

Definition scale (s : number) : number :=
  if ltb s (of_int 0) then mul_const s 0x8000 else mul_const s 0x7FFF.

(** The integer part of the scaled sample, before it is stored. *)
Definition scaled_int (x : number) : Z :=
  match scale (clamp x) with
  | Dyadic m e => truncate m e
  | _ => 0
  end.

Definition float32ToInt16 (float32 : list number) : list Z :=
  map (fun x => ToInt16 (scale (clamp x))) float32.

(** ** Byte view of the samples and the transport text *)

(** [pcmInt16.buffer] seen through a [Uint8Array]: two bytes per sample,
    low byte first. *)
Definition bytes_of_int16 (s : Z) : list byte :=
  let u := s mod 65536 in
  match Byte.of_N (Z.to_N (u mod 256)), Byte.of_N (Z.to_N (u / 256)) with
  | Some lo, Some hi => [lo; hi]
  | _, _ => []
  end.

Definition buffer_of_int16 (samples : list Z) : list byte :=
  flat_map bytes_of_int16 samples.

Definition String_fromCharCode (b : byte) : ascii := ascii_of_byte b.
Definition charCodeAt (c : ascii) : byte := byte_of_ascii c.

(** [arrayBufferToBase64]: one code unit per byte, then [btoa]. *)
Definition arrayBufferToBase64 (buffer : list byte) : string :=
  let binary :=
    fold_left (fun acc b => acc ++ String (String_fromCharCode b) EmptyString)%string
              buffer EmptyString in
  Base64.btoa binary.

(** Lines 103-108 of [play]: [atob], then one byte per code unit. *)
Definition fromTransportText (base64Audio : string) : outcome (list byte) :=
  match Base64.atob base64Audio with
  | Throw e => Throw e
  | Return binaryString =>
      Return (map charCodeAt (list_ascii_of_string binaryString))
  end.

(** [new Int16Array(bytes.buffer)]: a view of 16-bit little-endian signed
    samples; the constructor throws on a buffer of odd length. *)
Fixpoint int16_view (bytes : list byte) : outcome (list Z) :=
  match bytes with
  | [] => Return []
  | [_] => Throw RangeError
  | lo :: hi :: rest =>
      match int16_view rest with
      | Throw e => Throw e
      | Return samples =>
          let u := Z.of_N (Byte.to_N lo) + 256 * Z.of_N (Byte.to_N hi) in
          Return ((if u <? 32768 then u else u - 65536) :: samples)
      end
  end.

(** What [onaudioprocess] of the capture pipeline hands to its callback
    ([useAudioProcessor], lines 37-43): the frame encoded, seen as bytes,
    as transport text. *)
Definition onaudioprocess (inputData : list number) : string :=
  arrayBufferToBase64 (buffer_of_int16 (float32ToInt16 inputData)).

(** [int16Data[i] / 32768.0], exact in binary32. *)
Definition decodeFrame (int16Data : list Z) : list number :=
  map (fun s => Dyadic s (-15)) int16Data.

(** ** The design document's reading of the encoder

    Real-number semantics over [Q]: clamp to [-1,1], scale by 32768 below
    zero and by 32767 otherwise, then bring to an integer. *)
Definition numerator (m e : Z) : Z := if 0 <=? e then m * 2 ^ e else m.
Definition denominator (e : Z) : Z := if 0 <=? e then 1 else 2 ^ (- e).

Definition Qvalue (m e : Z) : Q :=
  Qmake (numerator m e) (Z.to_pos (denominator e)).

Definition clamp_spec (x : number) : option Q :=
  match x with
  | NaN => None
  | Infinity true => Some (-1)%Q
  | Infinity false => Some 1%Q
  | Dyadic m e => Some (Qmax (-1) (Qmin 1 (Qvalue m e)))
  end.

Definition scale_spec (s : Q) : Q :=
  if Qlt_le_dec s 0 then (s * 32768)%Q else (s * 32767)%Q.

(** Rounding to the nearest integer, halves upwards ([Math.round]). *)
Definition Qround (q : Q) : Z := Qfloor (q + (1 # 2))%Q.

(** Truncation toward zero. *)
Definition Qtruncate (q : Q) : Z := Z.quot (Qnum q) (Zpos (Qden q)).

(** As the document words it: [s<0 ? round(s*32768) : round(s*32767)]. *)
Definition encodeFrame_spec (samples : list number) : list Z :=
  map (fun x => match clamp_spec x with
                | None => 0
                | Some s => Qround (scale_spec s)
                end) samples.

(** With truncation in place of rounding. *)
Definition encodeFrame_truncating (samples : list number) : list Z :=
  map (fun x => match clamp_spec x with
                | None => 0
                | Some s => Qtruncate (scale_spec s)
                end) samples.

(** ** The same sample computed in binary64 *)

Definition number_of_float (f : float) : number :=
  match Prim2SF f with
  | S754_zero _ => Dyadic 0 0
  | S754_infinity s => Infinity s
  | S754_nan => NaN
  | S754_finite s m e => Dyadic (if s then Z.neg m else Z.pos m) e
  end.

Definition float_min (x y : float) : float :=
  if PrimFloat.is_nan x || PrimFloat.is_nan y then PrimFloat.nan
  else if PrimFloat.ltb y x then y else x.

Definition float_max (x y : float) : float :=
  if PrimFloat.is_nan x || PrimFloat.is_nan y then PrimFloat.nan
  else if PrimFloat.ltb x y then y else x.

Definition encode_sample_binary64 (x : float) : Z :=
  let s := float_max (-1)%float (float_min 1%float x) in
  ToInt16 (number_of_float
             (if PrimFloat.ltb s 0%float then (s * 32768)%float
              else (s * 32767)%float)).

End Codec.

(* ================================================================== *)
(** * Playback scheduler ([useAudioPlayer])                             *)
(* ================================================================== *)

Module Player.

Import Codec.

(** ** Platform objects *)

Record AudioBuffer : Type := {
  numberOfChannels : N;
  frames : N;                       (* [buffer.length] *)
  sampleRate : float;
  duration : float;                 (* [buffer.duration], in seconds *)
  channelData : list number
}.

Record AudioContext : Type := {
  currentTime : float;              (* the device clock, in seconds *)
  suspended : bool
}.

Record AudioBufferSourceNode : Type := {
  node_id : nat;                    (* object identity *)
  buffer : AudioBuffer
}.

(** One [source.start(when)] call, with the clock reading at the call. *)
Record StartCall : Type := {
  unit_started : AudioBufferSourceNode;
  when : float;
  called_at : float
}.

(** The hook's refs and state, and what the audio device was asked to do
    ([started] and [halted], most recent first). *)
Record Player : Type := {
  audioContextRef : option AudioContext;
  nextStartTimeRef : float;
  sourceNodesRef : list AudioBufferSourceNode;
  isPlaying : bool;
  nodes_created : nat;
  started : list StartCall;
  halted : list AudioBufferSourceNode
}.

Definition initial : Player :=
  {| audioContextRef := None; nextStartTimeRef := 0%float;
     sourceNodesRef := []; isPlaying := false;
     nodes_created := 0; started := []; halted := [] |}.

Definition set_audioContextRef (c : option AudioContext) (p : Player) : Player :=
  {| audioContextRef := c; nextStartTimeRef := nextStartTimeRef p;
     sourceNodesRef := sourceNodesRef p; isPlaying := isPlaying p;
     nodes_created := nodes_created p; started := started p;
     halted := halted p |}.

Definition set_nextStartTimeRef (t : float) (p : Player) : Player :=
  {| audioContextRef := audioContextRef p; nextStartTimeRef := t;
     sourceNodesRef := sourceNodesRef p; isPlaying := isPlaying p;
     nodes_created := nodes_created p; started := started p;
     halted := halted p |}.

Definition set_sourceNodesRef (l : list AudioBufferSourceNode) (p : Player) : Player :=
  {| audioContextRef := audioContextRef p; nextStartTimeRef := nextStartTimeRef p;
     sourceNodesRef := l; isPlaying := isPlaying p;
     nodes_created := nodes_created p; started := started p;
     halted := halted p |}.

Definition setIsPlaying (b : bool) (p : Player) : Player :=
  {| audioContextRef := audioContextRef p; nextStartTimeRef := nextStartTimeRef p;
     sourceNodesRef := sourceNodesRef p; isPlaying := b;
     nodes_created := nodes_created p; started := started p;
     halted := halted p |}.

(** [createBufferSource()] followed by [source.buffer = buffer] and
    [source.connect(destination)]: a fresh, unstarted unit. *)
Definition createBufferSource (b : AudioBuffer) : M Player AudioBufferSourceNode :=
  fun p =>
    (Return {| node_id := nodes_created p; buffer := b |},
     {| audioContextRef := audioContextRef p; nextStartTimeRef := nextStartTimeRef p;
        sourceNodesRef := sourceNodesRef p; isPlaying := isPlaying p;
        nodes_created := S (nodes_created p); started := started p;
        halted := halted p |}).

(** [source.start(when)] on a fresh unit. *)
Definition source_start (source : AudioBufferSourceNode) (t now : float) : M Player unit :=
  modify (fun p =>
    {| audioContextRef := audioContextRef p; nextStartTimeRef := nextStartTimeRef p;
       sourceNodesRef := sourceNodesRef p; isPlaying := isPlaying p;
       nodes_created := nodes_created p;
       started := {| unit_started := source; when := t; called_at := now |} :: started p;
       halted := halted p |}).

(** The device clock moving to [t] between two calls. *)
Definition tick (t : float) (p : Player) : Player :=
  match audioContextRef p with
  | None => p
  | Some ctx =>
      set_audioContextRef
        (Some {| currentTime := t; suspended := suspended ctx |}) p
  end.

Definition same_node (a b : AudioBufferSourceNode) : bool :=
  Nat.eqb (node_id a) (node_id b).

Section Hook.

(** The hook's argument, [useAudioPlayer(sampleRate = 24000)]. *)
Variable sampleRate_arg : float.

(** [AudioContext.createBuffer(channels, length, rate)] as the platform
    implements it: it raises for a length or a rate it does not
    support, and otherwise reports the buffer's duration. *)
Variable createBuffer : N -> N -> float -> outcome AudioBuffer.

(** Whether the platform raises when asked to halt this unit (an
    already finished unit, on some engines). *)
Variable stop_raises : AudioBufferSourceNode -> bool.

Definition node_stop (node : AudioBufferSourceNode) : M Player unit :=
  fun p =>
    if stop_raises node then (Throw InvalidStateError, p)
    else (Return tt,
          {| audioContextRef := audioContextRef p;
             nextStartTimeRef := nextStartTimeRef p;
             sourceNodesRef := sourceNodesRef p; isPlaying := isPlaying p;
             nodes_created := nodes_created p; started := started p;
             halted := node :: halted p |}).

Local Open Scope js_scope.

Definition init : M Player unit :=
  modify (fun p =>
    let ctx := match audioContextRef p with
               | None => {| currentTime := 0%float; suspended := true |}
               | Some ctx => ctx
               end in
    set_audioContextRef
      (Some (if suspended ctx
             then {| currentTime := currentTime ctx; suspended := false |}
             else ctx)) p).

(** [source.onended] of the unit [source]. *)
Definition onended (source : AudioBufferSourceNode) : M Player unit :=
  modify (fun p =>
    set_sourceNodesRef
      (filter (fun s => negb (same_node s source)) (sourceNodesRef p)) p) ;;;
  p <- get ;;
  match sourceNodesRef p with
  | [] => modify (setIsPlaying false)
  | _ => ret tt
  end.

Definition play (base64Audio : string) : M Player unit :=
  p <- get ;;
  match audioContextRef p with
  | None => ret tt
  | Some ctx =>
      (* Decode base64 to binary *)
      bytes <- lift (fromTransportText base64Audio) ;;
      (* Convert PCM 16-bit LE to Float32 *)
      int16Data <- lift (int16_view bytes) ;;
      let float32Data := decodeFrame int16Data in
      (* Create buffer with the source sample rate *)
      b <- lift (createBuffer 1 (N.of_nat (List.length float32Data)) sampleRate_arg) ;;
      let b := {| numberOfChannels := numberOfChannels b; frames := frames b;
                  sampleRate := sampleRate b; duration := duration b;
                  channelData := float32Data |} in
      (* Create source *)
      source <- createBufferSource b ;;
      (* Schedule playback *)
      let currentTime := currentTime ctx in
      (* If we fell behind, reset the clock to now *)
      (if (nextStartTimeRef p <? currentTime)%float
       then modify (set_nextStartTimeRef currentTime)
       else ret tt) ;;;
      p1 <- get ;;
      source_start source (nextStartTimeRef p1) currentTime ;;;
      (* Advance the clock *)
      modify (fun p => set_nextStartTimeRef
                         (nextStartTimeRef p + duration b)%float p) ;;;
      (* Track source for cleanup/stopping *)
      modify (fun p => set_sourceNodesRef (sourceNodesRef p ++ [source]) p) ;;;
      modify (setIsPlaying true)
  end.

(** The buffer [play] builds from a chunk (lines 103-119), when every
    step succeeds. *)
Definition prepare (base64Audio : string) : outcome AudioBuffer :=
  match fromTransportText base64Audio with
  | Throw e => Throw e
  | Return bytes =>
      match int16_view bytes with
      | Throw e => Throw e
      | Return int16Data =>
          let float32Data := decodeFrame int16Data in
          match createBuffer 1 (N.of_nat (List.length float32Data))
                             sampleRate_arg with
          | Throw e => Throw e
          | Return b =>
              Return {| numberOfChannels := numberOfChannels b;
                        frames := frames b; sampleRate := sampleRate b;
                        duration := duration b;
                        channelData := float32Data |}
          end
      end
  end.

Definition stop : M Player unit :=
  (* Stop all currently playing nodes *)
  p <- get ;;
  forEach (fun node => try_catch (node_stop node) (fun _ => ret tt))
          (sourceNodesRef p) ;;;
  modify (set_sourceNodesRef []) ;;;
  (* Reset time cursor *)
  p <- get ;;
  match audioContextRef p with
  | Some ctx => modify (set_nextStartTimeRef (currentTime ctx))
  | None => ret tt
  end ;;;
  modify (setIsPlaying false).

(** A chunk reaching [play] when the device clock reads [t]. *)
Definition arrive (p : Player) (a : float * string) : Player :=
  exec (play (snd a)) (tick (fst a) p).

Definition run (arrivals : list (float * string)) (p : Player) : Player :=
  fold_left arrive arrivals p.

(** The durations of the chunks of a run whose buffer could be built,
    in arrival order. *)
Definition prepared_durations (arrivals : list (float * string)) : list float :=
  flat_map (fun a => match prepare (snd a) with
                     | Return b => [duration b]
                     | Throw _ => []
                     end) arrivals.

End Hook.

(** The start times and the durations of the units started, oldest
    first. *)
Definition start_times (p : Player) : list float :=
  map when (rev (started p)).

Definition durations (p : Player) : list float :=
  map (fun c => duration (buffer (unit_started c))) (rev (started p)).

(** [createBuffer] of the Web Audio API: at least one frame, a rate
    between 3000 and 768000 Hz, and a duration of [length / sampleRate]. *)
Definition float_of_N (n : N) : float :=
  PrimFloat.of_uint63 (Uint63.of_Z (Z.of_N n)).

Definition webaudio_createBuffer (channels len : N) (rate : float)
  : outcome AudioBuffer :=
  if (len =? 0)%N || (channels =? 0)%N
     || negb ((3000 <=? rate)%float && (rate <=? 768000)%float)
  then Throw NotSupportedError
  else Return {| numberOfChannels := channels; frames := len;
                 sampleRate := rate;
                 duration := (float_of_N len / rate)%float;
                 channelData := repeat (Dyadic 0 0) (N.to_nat len) |}.

(** The state [play] leaves once the buffer [b] is built (lines 121-147),
    written out field by field. *)
Definition scheduled (ctx : AudioContext) (b : AudioBuffer) (p : Player)
  : Player :=
  let start := if (nextStartTimeRef p <? currentTime ctx)%float
               then currentTime ctx else nextStartTimeRef p in
  let source := {| node_id := nodes_created p; buffer := b |} in
  {| audioContextRef := audioContextRef p;
     nextStartTimeRef := (start + duration b)%float;
     sourceNodesRef := sourceNodesRef p ++ [source];
     isPlaying := true;
     nodes_created := S (nodes_created p);
     started := {| unit_started := source; when := start;
                   called_at := currentTime ctx |} :: started p;
     halted := halted p |}.

Definition set_halted (h : list AudioBufferSourceNode) (p : Player) : Player :=
  {| audioContextRef := audioContextRef p; nextStartTimeRef := nextStartTimeRef p;
     sourceNodesRef := sourceNodesRef p; isPlaying := isPlaying p;
     nodes_created := nodes_created p; started := started p;
     halted := h |}.

(** The nominal end of a scheduled unit: its start plus its duration. *)
Definition nominal_end (c : StartCall) : float :=
  (when c + duration (buffer (unit_started c)))%float.

(** No overlap and no artificial gap between consecutive start calls
    (most recent first). *)
Fixpoint gapless (calls : list StartCall) : Prop :=
  match calls with
  | later :: rest =>
      match rest with
      | earlier :: _ =>
          (when later <? nominal_end earlier)%float = false /\
          (PrimFloat.is_nan (nominal_end earlier) = false ->
           (nominal_end earlier <=? when later)%float = true) /\
          ((called_at later <? nominal_end earlier)%float = true ->
           when later = nominal_end earlier) /\
          gapless rest
      | [] => True
      end
  | [] => True
  end.

(** The virtual cursor stands at the nominal end of the last unit
    started. *)
Definition cursor_follows (p : Player) : Prop :=
  match started p with
  | [] => True
  | c :: _ => nextStartTimeRef p = nominal_end c
  end.

(** What a run of [play] preserves: the context stays, the cursor follows
    the last unit started, and the start calls made so far are gapless. *)
Definition steady (p : Player) : Prop :=
  audioContextRef p <> None /\ cursor_follows p /\ gapless (started p).

(** A chunk of [n] silent samples, as it comes off the wire. *)
Definition silence (n : N) : string :=
  Base64.btoa (string_of_list_ascii (repeat Ascii.zero (N.to_nat (2 * n)))).

(** The scheduler once [init] has run, and the same with a first chunk of
    half a second played at time 0 and the device clock now at 2 s. *)
Definition ready : Player := exec init initial.

Definition late : Player :=
  tick 2%float
    (run 24000%float webaudio_createBuffer [(0%float, silence 12000)] ready).

End Player.

(* ================================================================== *)
(** * Session protocol ([GeminiLiveService])                            *)
(* ================================================================== *)

Module Live.

Local Open Scope string_scope.

(** ** Inbound messages ([LiveServerMessage]); every field is optional *)

Record Transcription : Type := { text : option string }.
Record InlineData : Type := { data : option string }.
Record Part : Type := { inlineData : option InlineData }.
Record Content : Type := { parts : option (list Part) }.
Record LiveServerContent : Type := {
  outputTranscription : option Transcription;
  turnComplete : option bool;
  interrupted : option bool;
  modelTurn : option Content
}.
Record LiveServerMessage : Type := {
  serverContent : option LiveServerContent
}.

(** [a?.f] *)
Definition opt {A B} (a : option A) (f : A -> option B) : option B :=
  match a with
  | Some x => f x
  | None => None
  end.

(** [parts?.[0]] *)
Definition first {A} (l : option (list A)) : option A :=
  match l with
  | Some (x :: _) => Some x
  | _ => None
  end.

(** Truthiness of an optional string and of an optional boolean. *)
Definition truthy (s : option string) : option string :=
  match s with
  | Some (String c rest) => Some (String c rest)
  | _ => None
  end.

Definition is_true (b : option bool) : bool :=
  match b with
  | Some true => true
  | _ => false
  end.

Section Callbacks.

(** The caller's world and the callbacks handed to [connect]. *)
Variable W : Type.
Variable onTranscription : string -> M W unit.
Variable onAudioData : string -> M W unit.
Variable onTurnEnd : unit -> M W unit.

Local Open Scope js_scope.

Definition onmessage (message : LiveServerMessage) : M W unit :=
  (* Handle transcription *)
  let outputTx :=
    opt (opt (serverContent message) outputTranscription) text in
  match truthy outputTx with
  | Some outputTx => onTranscription outputTx
  | None => ret tt
  end ;;;
  (* Handle turn completion or interruption *)
  (if is_true (opt (serverContent message) turnComplete)
      || is_true (opt (serverContent message) interrupted)
   then onTurnEnd tt
   else ret tt) ;;;
  (* Handle audio *)
  let audioData :=
    opt (opt (first (opt (opt (serverContent message) modelTurn) parts))
             inlineData) data in
  match truthy audioData with
  | Some audioData => onAudioData audioData
  | None => ret tt
  end.

End Callbacks.

(** ** Observing the callbacks

    Each callback records its invocation and returns normally, as the
    callbacks the application passes to [connect] do. *)

Inductive Event : Type :=
| Transcribed (fragment : string)
| TurnEnded
| AudioReceived (base64Audio : string).

Definition record (e : Event) : M (list Event) unit :=
  modify (fun trace => (trace ++ [e])%list).

Definition observe (message : LiveServerMessage) (trace : list Event)
  : list Event :=
  exec (onmessage (list Event)
          (fun t => record (Transcribed t))
          (fun d => record (AudioReceived d))
          (fun _ => record TurnEnded)
          message) trace.

Definition is_transcribed (e : Event) : bool :=
  match e with Transcribed _ => true | _ => false end.
Definition is_turn_ended (e : Event) : bool :=
  match e with TurnEnded => true | _ => false end.
Definition is_audio (e : Event) : bool :=
  match e with AudioReceived _ => true | _ => false end.

Definition count (f : Event -> bool) (trace : list Event) : nat :=
  List.length (filter f trace).

(** What the message carries, read off its fields. *)
Definition fragment_of (message : LiveServerMessage) : option string :=
  opt (opt (serverContent message) outputTranscription) text.

Definition turn_boundary (message : LiveServerMessage) : bool :=
  is_true (opt (serverContent message) turnComplete)
  || is_true (opt (serverContent message) interrupted).

Definition first_part_audio (message : LiveServerMessage) : option string :=
  truthy (opt (opt (first (opt (opt (serverContent message) modelTurn) parts))
                   inlineData) data).

(** An inlined audio payload anywhere in the [modelTurn] parts. *)
Definition audio_payloads (message : LiveServerMessage) : list string :=
  match opt (opt (serverContent message) modelTurn) parts with
  | None => []
  | Some ps =>
      flat_map (fun p => match truthy (opt (inlineData p) data) with
                         | Some d => [d]
                         | None => []
                         end) ps
  end.

(** The invocations one message causes, in order. *)
Definition invocations (message : LiveServerMessage) : list Event :=
  (match truthy (fragment_of message) with
   | Some t => [Transcribed t]
   | None => []
   end
   ++ (if turn_boundary message then [TurnEnded] else [])
   ++ match first_part_audio message with
      | Some d => [AudioReceived d]
      | None => []
      end)%list.

(** Three messages: a final fragment with both turn flags set, an empty
    fragment at a turn boundary, and an audio payload in the second
    part. *)
Definition final_fragment : LiveServerMessage :=
  {| serverContent :=
       Some {| outputTranscription := Some {| text := Some "Tell me more." |};
               turnComplete := Some true;
               interrupted := Some true;
               modelTurn := None |} |}.

Definition empty_fragment : LiveServerMessage :=
  {| serverContent :=
       Some {| outputTranscription := Some {| text := Some "" |};
               turnComplete := Some true;
               interrupted := None;
               modelTurn := None |} |}.

Definition audio_in_second_part : LiveServerMessage :=
  {| serverContent :=
       Some {| outputTranscription := None;
               turnComplete := None;
               interrupted := None;
               modelTurn :=
                 Some {| parts :=
                           Some [ {| inlineData := None |};
                                  {| inlineData := Some {| data := Some "AAAA" |} |} ]
                      |} |} |}.

(** ** Outbound frames *)

Record Media : Type := { mimeType : string; media_data : string }.
Record RealtimeInput : Type := { media : Media }.

Record Session : Type := { session_id : nat }.

(** The state in which an [await] finds a promise. *)
Inductive Promise (A : Type) : Type :=
| Pending
| Fulfilled (a : A)
| Rejected (e : exn).
Arguments Pending {A}.
Arguments Fulfilled {A} a.
Arguments Rejected {A} e.

(** [await promise]: the value, the rejection raised at the [await], or
    nothing when the promise never settles and the body is not resumed. *)
Definition await {A} (promise : Promise A) : option (outcome A) :=
  match promise with
  | Pending => None
  | Fulfilled a => Some (Return a)
  | Rejected e => Some (Throw e)
  end.

Inductive LogEntry : Type :=
| ConsoleError (message : string) (e : exn).

(** The service object, the console, and the frames handed to the
    transport (oldest first). *)
Record Service : Type := {
  sessionPromise : option (Promise Session);
  console : list LogEntry;
  wire : list (Session * RealtimeInput)
}.

(** How the promise returned by an [async] method ends. *)
Inductive Settlement : Type :=
| Resolved
| RejectedWith (e : exn)
| Unsettled.

Definition settle (r : outcome unit * Service) : Settlement * Service :=
  match r with
  | (Return _, s) => (Resolved, s)
  | (Throw e, s) => (RejectedWith e, s)
  end.

Section Transport.

(** Whether [session.sendRealtimeInput] raises on this frame. *)
Variable transport : Session -> RealtimeInput -> option exn.

Definition sendRealtimeInput (session : Session) (input : RealtimeInput)
  : M Service unit :=
  fun s =>
    match transport session input with
    | Some e => (Throw e, s)
    | None =>
        (Return tt,
         {| sessionPromise := sessionPromise s; console := console s;
            wire := (wire s ++ [(session, input)])%list |})
    end.

Definition console_error (message : string) (e : exn) : M Service unit :=
  modify (fun s =>
    {| sessionPromise := sessionPromise s;
       console := (console s ++ [ConsoleError message e])%list;
       wire := wire s |}).

Local Open Scope js_scope.

Definition sendAudioChunk (base64PCM : string) (s : Service)
  : Settlement * Service :=
  match sessionPromise s with
  | None => (Resolved, s)
  | Some promise =>
      match await promise with
      | None => (Unsettled, s)
      | Some settled =>
          settle
            (try_catch
               (session <- lift settled ;;
                sendRealtimeInput session
                  {| media := {| mimeType := "audio/pcm;rate=16000";
                                 media_data := base64PCM |} |})
               (fun error => console_error "Error sending audio chunk" error)
               s)
      end
  end.

Definition disconnect (s : Service) : Service :=
  {| sessionPromise := None; console := console s; wire := wire s |}.

End Transport.

End Live.

(* ================================================================== *)
(** * Sixteen-bit samples on the wire                                   *)
(* ================================================================== *)

Module Pcm.

Import Codec.
Local Open Scope Z_scope.

(** The values an [Int16Array] element can hold. *)
Definition int16 (s : Z) : Prop := -32768 <= s <= 32767.

(** A chunk as the agent sends it: 16-bit little-endian samples as
    transport text. *)
Definition pcm_chunk (samples : list Z) : string :=
  arrayBufferToBase64 (buffer_of_int16 samples).

(** The value of a decoded sample, [s / 32768]. *)
Definition decoded_value (s : Z) : Q := Qvalue s (-15).

End Pcm.

(* ================================================================== *)
(** * The scheduler over time, and the application's use of it          *)
(* ================================================================== *)

Module Timeline.

Import Player.

(** What can happen to the hook between two renders: the calls of its
    three functions, the device clock moving, and a unit finishing. *)
Inductive Action : Type :=
| Init
| Tick (t : float)
| Play (base64Audio : string)
| Ended (source : AudioBufferSourceNode)
| Stop.

Section Hook.

Variable sampleRate_arg : float.
Variable createBuffer : N -> N -> float -> outcome AudioBuffer.
Variable stop_raises : AudioBufferSourceNode -> bool.

Definition perform (p : Player) (a : Action) : Player :=
  match a with
  | Init => exec init p
  | Tick t => tick t p
  | Play chunk => exec (play sampleRate_arg createBuffer chunk) p
  | Ended source => exec (onended source) p
  | Stop => exec (stop stop_raises) p
  end.

Definition history (actions : list Action) : Player :=
  fold_left perform actions initial.

(** The callbacks the application hands to [connect], as far as they act on
    the scheduler: [handleAiAudio] calls [play] and drops the promise it
    returns, the turn-end callback calls [stop], and the transcript
    callback leaves the scheduler alone. *)
Definition handleAiAudio (base64 : string) : M Player unit :=
  try_catch (play sampleRate_arg createBuffer base64) (fun _ => ret tt).

Definition onTurnEnd (_ : unit) : M Player unit := stop stop_raises.

Definition deliver (message : Live.LiveServerMessage) : M Player unit :=
  Live.onmessage Player (fun _ => ret tt) handleAiAudio onTurnEnd message.

End Hook.

(** The units the device was asked to start, most recent first. *)
Definition started_units (p : Player) : list AudioBufferSourceNode :=
  map unit_started (started p).

(** The units started carry the identities 0, 1, 2, ... in start order;
    the tracked units are among them, each once; so are the halted ones. *)
Definition identified (p : Player) : Prop :=
  map node_id (started_units p) = rev (seq 0 (nodes_created p))
  /\ incl (sourceNodesRef p) (started_units p)
  /\ NoDup (map node_id (sourceNodesRef p))
  /\ incl (halted p) (started_units p).

Definition tracking (p : Player) : bool :=
  match sourceNodesRef p with
  | [] => false
  | _ => true
  end.

(** A chunk of three silent samples, the buffer the Web Audio API builds
    for it at 24 kHz, a chunk of one and a half samples, and a message that
    ends the turn and carries the first chunk. *)
Definition three_samples : string := "AAAAAAAA".

Definition three_samples_buffer : AudioBuffer :=
  {| numberOfChannels := 1; frames := 3; sampleRate := 24000%float;
     duration := (float_of_N 3 / 24000)%float;
     channelData := Codec.decodeFrame [0%Z; 0%Z; 0%Z] |}.

Definition odd_chunk : string := "AAAA".

Definition closing_message : Live.LiveServerMessage :=
  {| Live.serverContent :=
       Some {| Live.outputTranscription := None;
               Live.turnComplete := Some true;
               Live.interrupted := None;
               Live.modelTurn :=
                 Some {| Live.parts :=
                           Some [ {| Live.inlineData :=
                                       Some {| Live.data := Some three_samples |} |} ]
                      |} |} |}.

End Timeline.

(* ================================================================== *)
(** * Opening and closing the session ([connect], [disconnect])         *)
(* ================================================================== *)

Module Connection.

Import Live.

(** The service, and the errors handed to the caller's [onError]. *)
Record Client : Type := {
  service : Service;
  reported : list exn
}.

(** How the promise returned by [connect] ends. *)
Inductive Connected : Type :=
| Opened (session : Session)
| Refused (e : exn)
| Waiting.

Definition onError (e : exn) (c : Client) : Client :=
  {| service := service c; reported := (reported c ++ [e])%list |}.

Definition set_sessionPromise (promise : option (Promise Session)) (c : Client)
  : Client :=
  {| service := {| sessionPromise := promise;
                   console := console (service c);
                   wire := wire (service c) |};
     reported := reported c |}.

(** [connect], given what [client.live.connect(...)] does: raise, or return
    a promise.  The promise is stored before it is awaited; a failure on
    either path goes to [onError] and is thrown again. *)
Definition connect (live_connect : outcome (Promise Session)) (c : Client)
  : Connected * Client :=
  match live_connect with
  | Throw error => (Refused error, onError error c)
  | Return promise =>
      let c := set_sessionPromise (Some promise) c in
      match await promise with
      | None => (Waiting, c)
      | Some (Return session) => (Opened session, c)
      | Some (Throw error) => (Refused error, onError error c)
      end
  end.

(** ** Captured frames on their way out *)

(** The object literal [sendAudioChunk] gives to [sendRealtimeInput]. *)
Definition realtime_input (base64PCM : string) : RealtimeInput :=
  {| media := {| mimeType := "audio/pcm;rate=16000";
                 media_data := base64PCM |} |}.


Section Outbound.

Variable transport : Session -> RealtimeInput -> option exn.

(** Whether the transport takes the chunk without raising. *)
Definition accepted (session : Session) (base64PCM : string) : bool :=
  match transport session (realtime_input base64PCM) with
  | None => true
  | Some _ => false
  end.

(** What a chunk the transport refuses leaves on the console. *)
Definition complaint (session : Session) (base64PCM : string) : list LogEntry :=
  match transport session (realtime_input base64PCM) with
  | None => []
  | Some e => [ConsoleError "Error sending audio chunk" e]
  end.

(** [handleAudioData] of the application: with the microphone on, the chunk
    goes to [sendAudioChunk]; the promise that returns is dropped.
    [geminiService.current] always holds the service. *)
Definition handleAudioData (isMicOn : bool) (base64 : string) (s : Service)
  : Service :=
  if isMicOn then snd (sendAudioChunk transport base64 s) else s.

(** A series of [onaudioprocess] events on one capture graph, oldest first.
    The handler installed by [start] keeps the [onAudioData] it was built
    with, so [isMicOn] is the same for all of them. *)
Definition capture (isMicOn : bool) (frames : list (list Codec.number))
  (s : Service) : Service :=
  fold_left
    (fun s inputData => handleAudioData isMicOn (Codec.onaudioprocess inputData) s)
    frames s.

End Outbound.


End Connection.

(* ================================================================== *)
(** * Capture pipeline ([useAudioProcessor])                            *)
(* ================================================================== *)

Module Capture.

(** The platform calls of [start] that can raise. *)
Inductive Step : Type :=
| NewAudioContext
| CreateMediaStreamSource
| CreateScriptProcessor
| ConnectSource
| CreateGain
| ConnectProcessor
| ConnectGain.

(** What the platform was asked to do. *)
Inductive Call : Type :=
| ContextCreated (ctx : nat) (sampleRate : N)
| SourceCreated (node : nat)
| ProcessorCreated (node : nat) (bufferSize inputs outputs : N)
| HandlerInstalled (node : nat)
| GainCreated (node : nat)
| GainSet (node : nat) (value : Z)
| Connected (from : nat) (to : option nat)    (* [None]: the destination *)
| Disconnected (node : nat)
| ContextClosed (ctx : nat).

(** The hook's four refs, the identities handed out so far, the platform
    calls made (most recent first) and the console. *)
Record Graph : Type := {
  audioContextRef : option nat;
  processorRef : option nat;
  sourceRef : option nat;
  gainNodeRef : option nat;
  objects : nat;
  calls : list Call;
  console : list (string * exn)
}.

Definition initial : Graph :=
  {| audioContextRef := None; processorRef := None; sourceRef := None;
     gainNodeRef := None; objects := 0; calls := []; console := [] |}.

Definition set_audioContextRef (r : option nat) (g : Graph) : Graph :=
  {| audioContextRef := r; processorRef := processorRef g;
     sourceRef := sourceRef g; gainNodeRef := gainNodeRef g;
     objects := objects g; calls := calls g; console := console g |}.

Definition set_processorRef (r : option nat) (g : Graph) : Graph :=
  {| audioContextRef := audioContextRef g; processorRef := r;
     sourceRef := sourceRef g; gainNodeRef := gainNodeRef g;
     objects := objects g; calls := calls g; console := console g |}.

Definition set_sourceRef (r : option nat) (g : Graph) : Graph :=
  {| audioContextRef := audioContextRef g; processorRef := processorRef g;
     sourceRef := r; gainNodeRef := gainNodeRef g;
     objects := objects g; calls := calls g; console := console g |}.

Definition set_gainNodeRef (r : option nat) (g : Graph) : Graph :=
  {| audioContextRef := audioContextRef g; processorRef := processorRef g;
     sourceRef := sourceRef g; gainNodeRef := r;
     objects := objects g; calls := calls g; console := console g |}.

(** A platform call that returns. *)
Definition call (c : Call) : M Graph unit :=
  modify (fun g =>
    {| audioContextRef := audioContextRef g; processorRef := processorRef g;
       sourceRef := sourceRef g; gainNodeRef := gainNodeRef g;
       objects := objects g; calls := c :: calls g; console := console g |}).

(** The identity of a newly created object. *)
Definition fresh : M Graph nat :=
  fun g =>
    (Return (objects g),
     {| audioContextRef := audioContextRef g; processorRef := processorRef g;
        sourceRef := sourceRef g; gainNodeRef := gainNodeRef g;
        objects := S (objects g); calls := calls g; console := console g |}).

Definition console_error (message : string) (e : exn) : M Graph unit :=
  modify (fun g =>
    {| audioContextRef := audioContextRef g; processorRef := processorRef g;
       sourceRef := sourceRef g; gainNodeRef := gainNodeRef g;
       objects := objects g; calls := calls g;
       console := (console g ++ [(message, e)])%list |}).

Record MediaStream : Type := { active : bool }.

Section Platform.

(** Whether the platform raises at a step, given the calls made so far. *)
Variable raises : list Call -> Step -> option exn.

Definition attempt (step : Step) : M Graph unit :=
  fun g =>
    match raises (calls g) step with
    | Some e => (Throw e, g)
    | None => (Return tt, g)
    end.

Local Open Scope js_scope.

Definition start (activeStream : MediaStream) : M Graph unit :=
  try_catch
    ((* Create context with the sample rate expected by Gemini (16kHz) *)
     attempt NewAudioContext ;;;
     ctx <- fresh ;;
     call (ContextCreated ctx 16000) ;;;
     modify (set_audioContextRef (Some ctx)) ;;;
     (* Create source from the passed-in stream *)
     attempt CreateMediaStreamSource ;;;
     source <- fresh ;;
     call (SourceCreated source) ;;;
     modify (set_sourceRef (Some source)) ;;;
     (* Use ScriptProcessor for raw PCM access *)
     attempt CreateScriptProcessor ;;;
     processor <- fresh ;;
     call (ProcessorCreated processor 4096 1 1) ;;;
     modify (set_processorRef (Some processor)) ;;;
     call (HandlerInstalled processor) ;;;
     attempt ConnectSource ;;;
     call (Connected source (Some processor)) ;;;
     (* Connect to destination via a muted gain node *)
     attempt CreateGain ;;;
     gain <- fresh ;;
     call (GainCreated gain) ;;;
     modify (set_gainNodeRef (Some gain)) ;;;
     call (GainSet gain 0) ;;;
     attempt ConnectProcessor ;;;
     call (Connected processor (Some gain)) ;;;
     attempt ConnectGain ;;;
     call (Connected gain None))
    (fun err => console_error "Audio processing setup failed" err).

Definition stop : M Graph unit :=
  g <- get ;;
  match processorRef g with
  | Some processor =>
      call (Disconnected processor) ;;; modify (set_processorRef None)
  | None => ret tt
  end ;;;
  match sourceRef g with
  | Some source => call (Disconnected source) ;;; modify (set_sourceRef None)
  | None => ret tt
  end ;;;
  match gainNodeRef g with
  | Some gain => call (Disconnected gain) ;;; modify (set_gainNodeRef None)
  | None => ret tt
  end ;;;
  match audioContextRef g with
  | Some ctx => call (ContextClosed ctx) ;;; modify (set_audioContextRef None)
  | None => ret tt
  end.

(** The effect of lines 14-22 for one value of its dependencies, and its
    cleanup. *)
Definition effect (isActive : bool) (stream : option MediaStream)
  : M Graph unit :=
  match stream with
  | Some s => if isActive && active s then start s else stop
  | None => stop
  end.

Definition cleanup : M Graph unit := stop.

(** A new value of the dependencies: the previous cleanup runs, then the
    effect. *)
Definition rerun (g : Graph) (deps : bool * option MediaStream) : Graph :=
  exec (effect (fst deps) (snd deps)) (exec cleanup g).

(** The hook from mount through a series of dependency values. *)
Definition life (renders : list (bool * option MediaStream)) : Graph :=
  fold_left rerun renders initial.

End Platform.

(** The nodes created and not disconnected since, and the contexts created
    and not closed since, read off the calls. *)
Fixpoint wired_nodes (calls : list Call) : list nat :=
  match calls with
  | [] => []
  | c :: earlier =>
      match c with
      | SourceCreated n | ProcessorCreated n _ _ _ | GainCreated n =>
          n :: wired_nodes earlier
      | Disconnected n =>
          filter (fun m => negb (Nat.eqb m n)) (wired_nodes earlier)
      | _ => wired_nodes earlier
      end
  end.

Fixpoint open_contexts (calls : list Call) : list nat :=
  match calls with
  | [] => []
  | c :: earlier =>
      match c with
      | ContextCreated n _ => n :: open_contexts earlier
      | ContextClosed n =>
          filter (fun m => negb (Nat.eqb m n)) (open_contexts earlier)
      | _ => open_contexts earlier
      end
  end.

Definition held {A} (r : option A) : list A :=
  match r with
  | Some x => [x]
  | None => []
  end.

(** Every open context and every wired node is the one a ref holds. *)
Definition tidy (g : Graph) : Prop :=
  open_contexts (calls g) = held (audioContextRef g)
  /\ wired_nodes (calls g)
     = (held (gainNodeRef g) ++ held (processorRef g) ++ held (sourceRef g))%list
  /\ NoDup (wired_nodes (calls g)).

Definition released (g : Graph) : Prop :=
  audioContextRef g = None /\ processorRef g = None
  /\ sourceRef g = None /\ gainNodeRef g = None.

End Capture.

(* ================================================================== *)
(** * Facts about base64                                                *)
(* ================================================================== *)

Module Base64Facts.

Import Base64.
Local Open Scope N_scope.

(** Lists three elements at a time. *)
Lemma list_ind3 (A : Type) (P : list A -> Prop) :
  P [] -> (forall a, P [a]) -> (forall a b, P [a; b]) ->
  (forall a b c rest, P rest -> P (a :: b :: c :: rest)) ->
  forall l, P l.
Proof.
  intros H0 H1 H2 H3.
  assert (both : forall l, P l /\ (forall a, P (a :: l))
                           /\ (forall a b, P (a :: b :: l))).
  { induction l as [|x l [IH0 [IH1 IH2]]].
    - repeat split; auto.
    - repeat split; auto. }
  intro l. apply both.
Qed.

(** A check made on each of the 64 sextets holds of every sextet. *)
Lemma all_sextets (P : N -> bool) :
  forallb P (map N.of_nat (seq 0 64)) = true ->
  forall n, n < 64 -> P n = true.
Proof.
  intros Hall n Hn.
  rewrite forallb_forall in Hall. apply Hall.
  rewrite <- (N2Nat.id n). apply in_map. apply in_seq. lia.
Qed.

Lemma sextet_of_char_of_sextet n :
  n < 64 -> sextet_of_char (char_of_sextet n) = Some n.
Proof.
  intro Hn.
  pose proof (all_sextets
    (fun k => match sextet_of_char (char_of_sextet k) with
              | Some k' => k' =? k
              | None => false
              end) eq_refl n Hn) as H.
  cbv beta in H.
  destruct (sextet_of_char (char_of_sextet n)) as [k|]; [|discriminate].
  apply N.eqb_eq in H. now subst.
Qed.

Lemma char_of_sextet_not_pad n :
  n < 64 -> Ascii.eqb (char_of_sextet n) pad = false.
Proof.
  intro Hn.
  pose proof (all_sextets (fun k => negb (Ascii.eqb (char_of_sextet k) pad))
                eq_refl n Hn) as H.
  now apply negb_true_iff in H.
Qed.

Lemma char_of_sextet_not_whitespace n :
  n < 64 -> is_ascii_whitespace (char_of_sextet n) = false.
Proof.
  intro Hn.
  pose proof (all_sextets (fun k => negb (is_ascii_whitespace (char_of_sextet k)))
                eq_refl n Hn) as H.
  now apply negb_true_iff in H.
Qed.

Lemma sextet_lt g i : sextet g i < 64.
Proof. unfold sextet. apply N.mod_lt. discriminate. Qed.

Lemma sextets_lt bs : Forall (fun n => n < 64) (sextets bs).
Proof.
  induction bs as [| a | a b | a b c rest IH] using list_ind3; simpl;
    repeat constructor; auto using sextet_lt.
Qed.

Lemma strip_padding_cons c data :
  Ascii.eqb c pad = false ->
  strip_padding (c :: data) = c :: strip_padding data.
Proof.
  intro Hc. destruct data as [|d [|d' data]]; simpl; rewrite ?Hc; reflexivity.
Qed.

(** Stripping the padding of an encoding leaves the characters of its
    sextets. *)
Lemma strip_padding_encode bs :
  strip_padding (encode bs) = map char_of_sextet (sextets bs).
Proof.
  induction bs as [| a | a b | a b c rest IH] using list_ind3.
  - reflexivity.
  - cbn [encode sextets map].
    rewrite !strip_padding_cons by (apply char_of_sextet_not_pad, sextet_lt).
    reflexivity.
  - cbn [encode sextets map].
    rewrite !strip_padding_cons by (apply char_of_sextet_not_pad, sextet_lt).
    reflexivity.
  - cbn [encode sextets map].
    rewrite !strip_padding_cons by (apply char_of_sextet_not_pad, sextet_lt).
    now rewrite IH.
Qed.

Lemma encode_no_whitespace bs :
  filter (fun c => negb (is_ascii_whitespace c)) (encode bs) = encode bs.
Proof.
  assert (Hpad : is_ascii_whitespace pad = false) by reflexivity.
  induction bs as [| a | a b | a b c rest IH] using list_ind3;
    cbn [encode filter];
    rewrite ?char_of_sextet_not_whitespace by apply sextet_lt;
    rewrite ?Hpad; cbn [negb]; rewrite ?IH; reflexivity.
Qed.

Lemma encode_length bs : N.of_nat (List.length (encode bs)) mod 4 = 0.
Proof.
  induction bs as [| a | a b | a b c rest IH] using list_ind3;
    try reflexivity.
  cbn [encode List.length].
  replace (N.of_nat (S (S (S (S (List.length (encode rest)))))))
    with (N.of_nat (List.length (encode rest)) + 1 * 4) by lia.
  now rewrite N.Div0.mod_add.
Qed.

Lemma sextets_length bs :
  N.of_nat (List.length (map char_of_sextet (sextets bs))) mod 4 <> 1.
Proof.
  rewrite length_map.
  induction bs as [| a | a b | a b c rest IH] using list_ind3;
    try (cbn; discriminate).
  cbn [sextets List.length].
  replace (N.of_nat (S (S (S (S (List.length (sextets rest)))))))
    with (N.of_nat (List.length (sextets rest)) + 1 * 4) by lia.
  now rewrite N.Div0.mod_add.
Qed.

Lemma sextets_of_chars_of_sextets ns :
  Forall (fun n => n < 64) ns ->
  sextets_of_chars (map char_of_sextet ns) = Some ns.
Proof.
  induction 1 as [|n ns Hn _ IH]; [reflexivity|].
  cbn [map sextets_of_chars].
  now rewrite sextet_of_char_of_sextet, IH.
Qed.

(** Reassembling the sextets of a quantum gives its bytes back. *)
Lemma decode_sextets bs :
  Forall (fun b => b < 256) bs -> decode (sextets bs) = bs.
Proof.
  induction bs as [| a | a b | a b c rest IH] using list_ind3; intro Hbs.
  - reflexivity.
  - inversion_clear Hbs as [|? ? Ha _].
    cbn [sextets decode]. unfold sextet, group24.
    change (64 ^ (3 - 0)) with 262144. change (64 ^ (3 - 1)) with 4096.
    f_equal. zify. Z.to_euclidean_division_equations. lia.
  - inversion_clear Hbs as [|? ? Ha Hbs']. inversion_clear Hbs' as [|? ? Hb _].
    cbn [sextets decode]. unfold sextet, group24.
    change (64 ^ (3 - 0)) with 262144. change (64 ^ (3 - 1)) with 4096.
    change (64 ^ (3 - 2)) with 64.
    f_equal; [|f_equal]; zify; Z.to_euclidean_division_equations; lia.
  - inversion_clear Hbs as [|? ? Ha Hbs']. inversion_clear Hbs' as [|? ? Hb Hbs].
    inversion_clear Hbs as [|? ? Hc Hrest].
    cbn [sextets decode]. rewrite (IH Hrest). unfold sextet, group24.
    change (64 ^ (3 - 0)) with 262144. change (64 ^ (3 - 1)) with 4096.
    change (64 ^ (3 - 2)) with 64. change (64 ^ (3 - 3)) with 1.
    f_equal; [|f_equal; [|f_equal]];
      zify; Z.to_euclidean_division_equations; lia.
Qed.

(** [atob] undoes [btoa] on every binary string. *)
Lemma atob_btoa binary : atob (btoa binary) = Return binary.
Proof.
  unfold atob, btoa.
  rewrite list_ascii_of_string_of_list_ascii.
  set (bs := map N_of_ascii (list_ascii_of_string binary)).
  rewrite encode_no_whitespace, encode_length. cbn [N.eqb].
  rewrite strip_padding_encode.
  destruct (N.eqb_spec
              (N.of_nat (List.length (map char_of_sextet (sextets bs))) mod 4) 1)
    as [E|_]; [now apply sextets_length in E|].
  rewrite sextets_of_chars_of_sextets by apply sextets_lt.
  rewrite decode_sextets.
  - subst bs. rewrite map_map.
    rewrite (map_ext _ (fun c => c)) by apply ascii_N_embedding.
    rewrite map_id. now rewrite string_of_list_ascii_of_string.
  - subst bs. apply Forall_forall. intros n Hin.
    apply in_map_iff in Hin. destruct Hin as [c [<- _]].
    apply N_ascii_bounded.
Qed.

End Base64Facts.

(* ================================================================== *)
(** * Facts about the PCM codec                                         *)
(* ================================================================== *)

Module CodecFacts.

Import Codec.
Local Open Scope Z_scope.

(** ** Transport text *)

Lemma append_assoc (a b c : string) :
  ((a ++ b) ++ c = a ++ (b ++ c))%string.
Proof. induction a as [|x a IH]; simpl; [reflexivity | now rewrite IH]. Qed.

Lemma binary_string_of_buffer (buffer : list byte) (acc : string) :
  fold_left (fun acc b => acc ++ String (String_fromCharCode b) EmptyString)%string
            buffer acc
  = (acc ++ string_of_list_ascii (map String_fromCharCode buffer))%string.
Proof.
  revert acc. induction buffer as [|b buffer IH]; intro acc; simpl.
  - induction acc as [|x acc IHa]; simpl; [reflexivity | now rewrite <- IHa].
  - rewrite IH, append_assoc. reflexivity.
Qed.

(** C2.  For every byte sequence, decoding the transport text produced
    from it gives the same bytes back: the [atob]-and-[charCodeAt] decoding
    at the start of [play] undoes [arrayBufferToBase64], and never throws
    on its output. *)
Theorem transport_text_round_trip (b : list byte) :
  fromTransportText (arrayBufferToBase64 b) = Return b.
Proof.
  unfold fromTransportText, arrayBufferToBase64.
  rewrite Base64Facts.atob_btoa.
  rewrite binary_string_of_buffer. cbn [String.append].
  rewrite list_ascii_of_string_of_list_ascii, map_map.
  f_equal. rewrite <- (map_id b) at 2. apply map_ext.
  intro x. apply byte_of_ascii_of_byte.
Qed.

(** ** The encoder *)

Lemma denominator_pos e : 0 < denominator e.
Proof.
  unfold denominator. destruct (Z.leb_spec 0 e); [lia|].
  apply Z.pow_pos_nonneg; lia.
Qed.

Lemma truncate_quot m e :
  truncate m e = Z.quot (numerator m e) (denominator e).
Proof.
  unfold truncate, numerator, denominator.
  destruct (0 <=? e); [now rewrite Z.quot_1_r | reflexivity].
Qed.

Lemma numerator_mul m k e : numerator (m * k) e = numerator m e * k.
Proof. unfold numerator. destruct (0 <=? e); ring. Qed.

(** Comparison of a sample with an integer constant. *)
Lemma ltb_const_r m e k :
  ltb (Dyadic m e) (of_int k) = (numerator m e <? k * denominator e).
Proof.
  unfold ltb, of_int, numerator, denominator.
  destruct (Z.leb_spec 0 e).
  - rewrite Z.min_r by lia. now rewrite !Z.sub_0_r, Z.pow_0_r.
  - rewrite Z.min_l by lia. now rewrite Z.sub_diag, Z.pow_0_r, Z.mul_1_r, Z.sub_0_l.
Qed.

Lemma ltb_const_l m e k :
  ltb (of_int k) (Dyadic m e) = (k * denominator e <? numerator m e).
Proof.
  unfold ltb, of_int, numerator, denominator.
  destruct (Z.leb_spec 0 e).
  - rewrite Z.min_l by lia. now rewrite !Z.sub_0_r, Z.pow_0_r.
  - rewrite Z.min_r by lia. now rewrite Z.sub_diag, Z.pow_0_r, Z.mul_1_r, Z.sub_0_l.
Qed.

(** The three outcomes of the clamp of line 98. *)
Lemma clamp_dyadic m e :
  clamp (Dyadic m e) =
    if denominator e <=? numerator m e then of_int 1
    else if numerator m e <=? - denominator e then of_int (-1)
    else Dyadic m e.
Proof.
  pose proof (denominator_pos e) as Hd.
  unfold clamp, Math_min.
  change (match of_int 1 with NaN => NaN | _ =>
            if ltb (Dyadic m e) (of_int 1) then Dyadic m e else of_int 1 end)
    with (if ltb (Dyadic m e) (of_int 1) then Dyadic m e else of_int 1).
  rewrite ltb_const_r.
  destruct (Z.ltb_spec (numerator m e) (1 * denominator e)) as [Hlt|Hge].
  - destruct (Z.leb_spec (denominator e) (numerator m e)); [lia|].
    unfold Math_max.
    change (match of_int (-1) with NaN => NaN | _ =>
              if ltb (of_int (-1)) (Dyadic m e) then Dyadic m e else of_int (-1) end)
      with (if ltb (of_int (-1)) (Dyadic m e) then Dyadic m e else of_int (-1)).
    rewrite ltb_const_l.
    destruct (Z.ltb_spec (-1 * denominator e) (numerator m e));
      destruct (Z.leb_spec (numerator m e) (- denominator e)); try lia; reflexivity.
  - destruct (Z.leb_spec (denominator e) (numerator m e)); [|lia]. reflexivity.
Qed.

Lemma wrap16_id n : -32768 <= n <= 32767 -> wrap16 n = n.
Proof. intro H. unfold wrap16. rewrite Z.mod_small; lia. Qed.

Lemma quot_bounds n d k :
  0 < d -> 0 < k -> - d < n < d -> - k < Z.quot (n * k) d < k.
Proof.
  intros Hd Hk Hn.
  destruct (Z.le_gt_cases 0 n) as [Hpos|Hneg].
  - assert (0 <= Z.quot (n * k) d) by (apply Z.quot_pos; nia).
    assert (Z.quot (n * k) d < k) by (apply Z.quot_lt_upper_bound; nia).
    lia.
  - replace (n * k) with (- (- n * k)) by ring.
    rewrite Z.quot_opp_l by lia.
    assert (0 <= Z.quot (- n * k) d) by (apply Z.quot_pos; nia).
    assert (Z.quot (- n * k) d < k) by (apply Z.quot_lt_upper_bound; nia).
    lia.
Qed.

(** The scaled sample never leaves the 16-bit range, so storing it wraps
    nothing. *)
Lemma scaled_int_range x : -32768 <= scaled_int x <= 32767.
Proof.
  destruct x as [|[|]|m e]; try (vm_compute; split; discriminate).
  unfold scaled_int. rewrite clamp_dyadic.
  pose proof (denominator_pos e) as Hd.
  destruct (Z.leb_spec (denominator e) (numerator m e)) as [H1|H1];
    [vm_compute; split; discriminate|].
  destruct (Z.leb_spec (numerator m e) (- denominator e)) as [H2|H2];
    [vm_compute; split; discriminate|].
  unfold scale. rewrite ltb_const_r.
  destruct (Z.ltb_spec (numerator m e) (0 * denominator e)) as [H3|H3];
    cbn [mul_const]; rewrite truncate_quot, numerator_mul.
  - pose proof (quot_bounds (numerator m e) (denominator e) 32768 Hd eq_refl
                  (conj H2 H1)).
    assert (Z.quot (numerator m e * 32768) (denominator e) <= 0).
    { replace (numerator m e * 32768) with (- (- numerator m e * 32768)) by ring.
      rewrite Z.quot_opp_l by lia.
      assert (0 <= Z.quot (- numerator m e * 32768) (denominator e))
        by (apply Z.quot_pos; nia).
      lia. }
    change 0x8000 with 32768. lia.
  - pose proof (quot_bounds (numerator m e) (denominator e) 32767 Hd eq_refl
                  (conj H2 H1)).
    change 0x7FFF with 32767. lia.
Qed.

Lemma ToInt16_scaled x : ToInt16 (scale (clamp x)) = scaled_int x.
Proof.
  pose proof (scaled_int_range x) as H. unfold scaled_int in *.
  destruct (scale (clamp x)) as [| |m e]; try reflexivity.
  cbn [ToInt16]. now apply wrap16_id.
Qed.

Lemma scaled_int_truncating x :
  scaled_int x = match clamp_spec x with
                 | None => 0
                 | Some s => Qtruncate (scale_spec s)
                 end.
Proof.
  destruct x as [|[|]|m e]; try reflexivity.
  unfold scaled_int. rewrite clamp_dyadic.
  pose proof (denominator_pos e) as Hd.
  unfold clamp_spec, Qvalue.
  assert (HP : Z.pos (Z.to_pos (denominator e)) = denominator e)
    by (apply Z2Pos.id; lia).
  unfold Qmin, Qmax, GenericMinMax.gmin, GenericMinMax.gmax, Qcompare.
  cbn [Qnum Qden]. rewrite HP.
  destruct (Z.leb_spec (denominator e) (numerator m e)) as [H1|H1].
  - destruct (Z.compare_spec (1 * denominator e) (numerator m e * 1));
      try lia; reflexivity.
  - destruct (Z.compare_spec (1 * denominator e) (numerator m e * 1));
      try lia.
    cbn [Qnum Qden]. rewrite HP.
    destruct (Z.leb_spec (numerator m e) (- denominator e)) as [H2|H2].
    + destruct (Z.compare_spec (-1 * denominator e) (numerator m e * 1));
        try lia; reflexivity.
    + destruct (Z.compare_spec (-1 * denominator e) (numerator m e * 1));
        try lia.
      unfold scale, scale_spec. rewrite ltb_const_r.
      destruct (Qlt_le_dec _ 0) as [Hq|Hq];
        unfold Qlt, Qle in Hq; cbn [Qnum Qden] in Hq;
        destruct (Z.ltb_spec (numerator m e) (0 * denominator e)); try lia;
        cbn [mul_const]; rewrite truncate_quot, numerator_mul;
        unfold Qtruncate, Qmult; cbn [Qnum Qden];
        rewrite Pos.mul_1_r, HP; reflexivity.
Qed.

(** Every product [float32ToInt16] forms on a binary32 sample has a
    significand and an exponent that binary64 holds: nothing is rounded
    before the store. *)
Lemma product_fits_binary64 x :
  is_float32 x ->
  match scale (clamp x) with
  | Dyadic m e => Z.abs m < 2 ^ 53 /\ -1074 <= e <= 971
  | _ => True
  end.
Proof.
  destruct x as [|neg|m e]; cbn [is_float32].
  - intros _. exact I.
  - intros _. destruct neg; vm_compute; repeat split; discriminate.
  - intros [Hm He]. rewrite clamp_dyadic.
    destruct (denominator e <=? numerator m e);
      [vm_compute; repeat split; discriminate|].
    destruct (numerator m e <=? - denominator e);
      [vm_compute; repeat split; discriminate|].
    unfold scale. destruct (ltb (Dyadic m e) (of_int 0)); cbn [mul_const];
      (split; [|lia]).
    + change 0x8000 with 32768. change (2 ^ 53) with 9007199254740992.
      change (2 ^ 24) with 16777216 in Hm. lia.
    + change 0x7FFF with 32767. change (2 ^ 53) with 9007199254740992.
      change (2 ^ 24) with 16777216 in Hm. lia.
Qed.

(** The same samples through binary64 arithmetic. *)
Example binary64_agrees :
  map encode_sample_binary64
      [0.25; -0.25; 1; -1; 40; -40; nan; neg_infinity; infinity;
       0.75; 0; -0.375; 0x1p-30; -0x1.fffffep-1]%float
  = float32ToInt16
      (map number_of_float
         [0.25; -0.25; 1; -1; 40; -40; nan; neg_infinity; infinity;
          0.75; 0; -0.375; 0x1p-30; -0x1.fffffep-1]%float).
Proof. vm_compute. reflexivity. Qed.

(** C1, as the code has it.  For every sequence of floats,
    [float32ToInt16] returns one 16-bit sample per input: NaN gives 0, and
    any other sample, clamped to [-1,1], gives [s*32768] (when the clamped
    [s] is negative) or [s*32767] (otherwise) truncated toward zero.  It
    is a total function. *)
Theorem float32ToInt16_truncates (float32 : list number) :
  float32ToInt16 float32 = encodeFrame_truncating float32
  /\ List.length (float32ToInt16 float32) = List.length float32.
Proof.
  split.
  - unfold float32ToInt16, encodeFrame_truncating. apply map_ext.
    intro x. now rewrite ToInt16_scaled, scaled_int_truncating.
  - apply length_map.
Qed.

(** C1, as it is worded (rounding), fails on the sample 0.25: the code
    stores 8191 where [round(0.25 * 32767) = round(8191.75)] is 8192. *)
Lemma float32ToInt16_does_not_round :
  float32ToInt16 [Dyadic 1 (-2)] = [8191]
  /\ encodeFrame_spec [Dyadic 1 (-2)] = [8192]
  /\ float32ToInt16 [Dyadic 1 (-2)] <> encodeFrame_spec [Dyadic 1 (-2)].
Proof. repeat split. vm_compute. discriminate. Qed.

(** C3.  For every input float, in particular every one in [-1,1], the
    scaled and truncated sample lies in [-32768, 32767] before it is
    stored, and the stored 16-bit sample is that very value. *)
Theorem float32ToInt16_range (float32 : list number) :
  Forall (fun x => -32768 <= scaled_int x <= 32767) float32
  /\ float32ToInt16 float32 = map scaled_int float32
  /\ Forall (fun y => -32768 <= y <= 32767) (float32ToInt16 float32).
Proof.
  assert (H : float32ToInt16 float32 = map scaled_int float32).
  { unfold float32ToInt16. apply map_ext. intro x. apply ToInt16_scaled. }
  repeat split.
  - apply Forall_forall. intros x _. apply scaled_int_range.
  - exact H.
  - rewrite H. apply Forall_forall. intros y Hy.
    apply in_map_iff in Hy. destruct Hy as [x [<- _]]. apply scaled_int_range.
Qed.

End CodecFacts.

(* ================================================================== *)
(** * Facts about the playback scheduler                                *)
(* ================================================================== *)

Module PlayerFacts.

Import Codec Player.

(** ** Order on binary64 *)

Lemma SFcompare_swap x y :
  SFcompare y x = option_map CompOpp (SFcompare x y).
Proof.
  destruct x as [s1|s1| |s1 m1 e1], y as [s2|s2| |s2 m2 e2]; cbn;
    try reflexivity;
    try (destruct s1; reflexivity);
    try (destruct s2; reflexivity);
    try (destruct s1, s2; reflexivity).
  rewrite (Z.compare_antisym e1 e2).
  replace (PosDef.Pos.compare_cont Eq m2 m1)
    with (CompOpp (PosDef.Pos.compare_cont Eq m1 m2))
    by apply (Pos.compare_cont_antisym m1 m2 Eq).
  destruct s1, s2; try reflexivity;
    destruct (e1 ?= e2)%Z; cbn [CompOpp]; try reflexivity;
    destruct (PosDef.Pos.compare_cont Eq m1 m2); reflexivity.
Qed.

Lemma ltb_asym (x y : float) : (x <? y)%float = true -> (y <? x)%float = false.
Proof.
  rewrite !ltb_spec. unfold SFltb.
  rewrite (SFcompare_swap (Prim2SF x) (Prim2SF y)).
  destruct (SFcompare (Prim2SF x) (Prim2SF y)) as [[| |]|];
    discriminate || reflexivity.
Qed.

Lemma ltb_leb (x y : float) : (x <? y)%float = true -> (x <=? y)%float = true.
Proof.
  rewrite ltb_spec, leb_spec. unfold SFltb, SFleb.
  destruct (SFcompare (Prim2SF x) (Prim2SF y)) as [[| |]|];
    discriminate || reflexivity.
Qed.

(** A number that is not NaN compares equal to itself. *)
Lemma not_nan_compare (x : float) :
  PrimFloat.is_nan x = false ->
  SFcompare (Prim2SF x) (Prim2SF x) = Some Eq.
Proof.
  unfold PrimFloat.is_nan. rewrite eqb_spec. unfold SFeqb.
  destruct (SFcompare (Prim2SF x) (Prim2SF x)) as [[| |]|];
    discriminate || reflexivity.
Qed.

Lemma leb_refl (x : float) :
  PrimFloat.is_nan x = false -> (x <=? x)%float = true.
Proof.
  intro Hx. rewrite leb_spec. unfold SFleb.
  now rewrite (not_nan_compare x Hx).
Qed.

Lemma SFcompare_defined X Y :
  SFcompare X X = Some Eq -> SFcompare Y Y = Some Eq -> SFcompare X Y <> None.
Proof.
  destruct X, Y; cbn; intros HX HY; discriminate.
Qed.

Lemma leb_of_not_ltb (x y : float) :
  PrimFloat.is_nan x = false -> PrimFloat.is_nan y = false ->
  (x <? y)%float = false -> (y <=? x)%float = true.
Proof.
  intros Hx Hy. apply not_nan_compare in Hx, Hy.
  pose proof (SFcompare_defined _ _ Hx Hy) as Hdef.
  rewrite ltb_spec, leb_spec. unfold SFltb, SFleb.
  rewrite (SFcompare_swap (Prim2SF x) (Prim2SF y)).
  destruct (SFcompare (Prim2SF x) (Prim2SF y)) as [[| |]|];
    cbn [option_map CompOpp]; intro H;
    try discriminate H; try reflexivity; congruence.
Qed.

Lemma ltb_irrefl (x : float) : (x <? x)%float = false.
Proof.
  destruct (x <? x)%float eqn:E; [|reflexivity].
  pose proof (ltb_asym _ _ E) as E'. congruence.
Qed.

Section Hook.

Variable sampleRate_arg : float.
Variable createBuffer : N -> N -> float -> outcome AudioBuffer.
Variable stop_raises : AudioBufferSourceNode -> bool.

Local Abbreviation play := (Player.play sampleRate_arg createBuffer).
Local Abbreviation prepare := (Player.prepare sampleRate_arg createBuffer).
Local Abbreviation run := (Player.run sampleRate_arg createBuffer).
Local Abbreviation arrive := (Player.arrive sampleRate_arg createBuffer).
Local Abbreviation stop := (Player.stop stop_raises).

(** ** One call of [play] *)

(** With an output context, [play] either throws while building the
    buffer, before any ref is written, or schedules the buffer. *)
Lemma play_spec p ctx chunk :
  audioContextRef p = Some ctx ->
  play chunk p =
    match prepare chunk with
    | Throw e => (Throw e, p)
    | Return b => (Return tt, scheduled ctx b p)
    end.
Proof.
  intro Hctx.
  unfold Player.play, Player.prepare, bind, get, lift. rewrite Hctx.
  destruct (fromTransportText chunk) as [bytes|e]; [|reflexivity].
  destruct (int16_view bytes) as [int16Data|e]; [|reflexivity].
  destruct (createBuffer 1 _ sampleRate_arg) as [b|e]; [|reflexivity].
  unfold createBufferSource, source_start, modify, ret, scheduled.
  cbn.
  destruct (nextStartTimeRef p <? currentTime ctx)%float; reflexivity.
Qed.

Lemma tick_context p t :
  audioContextRef p <> None ->
  exists ctx, audioContextRef (tick t p) = Some ctx /\ currentTime ctx = t.
Proof.
  unfold tick. destruct (audioContextRef p) as [ctx|]; [|congruence].
  intros _. eexists. split; reflexivity.
Qed.

Lemma tick_refs p t :
  nextStartTimeRef (tick t p) = nextStartTimeRef p
  /\ started (tick t p) = started p.
Proof. unfold tick. destruct (audioContextRef p); split; reflexivity. Qed.

(** ** Runs of [play] *)

Lemma arrive_steady p a : steady p -> steady (arrive p a).
Proof.
  intros [Hctx [Hcur Hgap]]. destruct a as [t chunk].
  unfold Player.arrive, exec. cbn [fst snd].
  destruct (tick_context p t Hctx) as [ctx [Hctx' Hnow]].
  destruct (tick_refs p t) as [Hnext Hstarted].
  rewrite (play_spec _ ctx chunk Hctx').
  destruct (prepare chunk) as [b|e]; cbn [snd].
  - unfold steady, cursor_follows, scheduled. cbn.
    rewrite Hctx', Hnext, Hstarted, Hnow.
    split; [congruence|]. split; [reflexivity|].
    unfold cursor_follows in Hcur.
    destruct (started p) as [|earlier rest]; [exact I|].
    rewrite Hcur. fold (nominal_end earlier). repeat split.
    + destruct (nominal_end earlier <? t)%float eqn:E.
      * now apply ltb_asym.
      * apply ltb_irrefl.
    + intro Hnan. destruct (nominal_end earlier <? t)%float eqn:E.
      * now apply ltb_leb.
      * now apply leb_refl.
    + intro Hearly. now rewrite (ltb_asym _ _ Hearly).
    + exact Hgap.
  - unfold steady, cursor_follows. rewrite Hctx', Hnext, Hstarted.
    split; [congruence|]. split; assumption.
Qed.

Lemma run_steady arrivals p : steady p -> steady (run arrivals p).
Proof.
  revert p. induction arrivals as [|a arrivals IH]; intros p Hp; [exact Hp|].
  cbn. apply IH. now apply arrive_steady.
Qed.

(** Every chunk whose buffer could be built is started, in arrival
    order, with the duration of its buffer. *)
Lemma run_durations arrivals p :
  audioContextRef p <> None ->
  durations (run arrivals p)
  = durations p ++ Player.prepared_durations sampleRate_arg createBuffer arrivals.
Proof.
  revert p. induction arrivals as [|[t chunk] arrivals IH]; intros p Hctx.
  - cbn. now rewrite app_nil_r.
  - cbn [Player.run fold_left Player.prepared_durations flat_map].
    fold (run arrivals (arrive p (t, chunk))).
    fold (Player.prepared_durations sampleRate_arg createBuffer arrivals).
    destruct (tick_context p t Hctx) as [ctx [Hctx' Hnow]].
    destruct (tick_refs p t) as [_ Hstarted].
    assert (Hstep : audioContextRef (arrive p (t, chunk)) <> None
                    /\ durations (arrive p (t, chunk))
                       = durations p ++ match prepare chunk with
                                        | Return b => [duration b]
                                        | Throw _ => []
                                        end).
    { unfold Player.arrive, exec. cbn [fst snd].
      rewrite (play_spec _ ctx chunk Hctx').
      destruct (prepare chunk) as [b|e]; cbn [snd].
      - split.
        + unfold scheduled. cbn. rewrite Hctx'. congruence.
        + unfold durations, scheduled. cbn. rewrite Hstarted.
          now rewrite map_app.
      - split; [rewrite Hctx'; congruence|].
        unfold durations. rewrite Hstarted. now rewrite app_nil_r. }
    destruct Hstep as [Hctx1 Hdur].
    rewrite (IH _ Hctx1), Hdur, <- app_assoc. reflexivity.
Qed.

(** C5.  For every [play] call on an initialised scheduler whose chunk
    decodes to a buffer, the unit is started at the larger of the virtual
    cursor and the device clock: at the device clock when the cursor had
    fallen behind it (the cursor is snapped forward), at the cursor
    otherwise; the cursor then moves on by the buffer's duration. *)
Theorem play_starts_at_max p ctx chunk b :
  audioContextRef p = Some ctx ->
  prepare chunk = Return b ->
  let cursor := nextStartTimeRef p in
  let now := currentTime ctx in
  let p' := exec (play chunk) p in
  exists c,
    started p' = c :: started p
    /\ buffer (unit_started c) = b
    /\ when c = (if (cursor <? now)%float then now else cursor)
    /\ (when c <? cursor)%float = false
    /\ (when c <? now)%float = false
    /\ (when c = cursor \/ when c = now)
    /\ ((cursor <? now)%float = true -> when c = now)
    /\ (PrimFloat.is_nan cursor = false -> PrimFloat.is_nan now = false ->
        when c = float_max cursor now
        /\ (cursor <=? when c)%float = true
        /\ (now <=? when c)%float = true)
    /\ nextStartTimeRef p' = (when c + duration b)%float.
Proof.
  intros Hctx Hb cursor now p'. subst p'.
  unfold exec. rewrite (play_spec _ ctx chunk Hctx), Hb. cbn [snd].
  eexists. split; [reflexivity|]. cbn.
  fold cursor now. unfold float_max.
  destruct (cursor <? now)%float eqn:E; repeat split;
    try reflexivity; try apply ltb_irrefl; try (now apply ltb_asym);
    try exact E; try discriminate;
    try (left; reflexivity); try (right; reflexivity);
    try (now apply ltb_leb); try (now apply leb_refl);
    try (now apply leb_of_not_ltb);
    match goal with
    | Hc : PrimFloat.is_nan cursor = false,
      Hn : PrimFloat.is_nan now = false |- _ =>
        rewrite Hc, Hn; cbn [orb]; reflexivity
    end.
Qed.

(** C10.  Before [init] has created an output context, [play] returns
    at once: nothing is scheduled, and the cursor, the tracked units and
    the playback-active status are what they were. *)
Theorem play_before_init p chunk :
  audioContextRef p = None ->
  play chunk p = (Return tt, p).
Proof.
  intro Hctx. unfold Player.play, bind, get. now rewrite Hctx.
Qed.

(** ** [stop] *)

Lemma set_halted_same p : set_halted (halted p) p = p.
Proof. now destruct p. Qed.

(** The loop of [stop]: every unit is asked to halt, a unit that raises
    is skipped, and the loop itself never raises. *)
Lemma halt_all nodes p :
  forEach (fun node =>
             try_catch (Player.node_stop stop_raises node) (fun _ => ret tt))
          nodes p
  = (Return tt,
     set_halted (rev (filter (fun n => negb (stop_raises n)) nodes)
                   ++ halted p) p).
Proof.
  revert p. induction nodes as [|n nodes IH]; intro p.
  - cbn. now rewrite set_halted_same.
  - cbn [forEach filter]. unfold bind at 1.
    unfold try_catch at 1, Player.node_stop at 1.
    destruct (stop_raises n); cbn [negb].
    + unfold ret at 1. now rewrite IH.
    + rewrite IH. cbn [rev halted]. now rewrite <- app_assoc.
Qed.

Lemma stop_spec p :
  stop p =
    (Return tt,
     {| audioContextRef := audioContextRef p;
        nextStartTimeRef := match audioContextRef p with
                            | Some ctx => currentTime ctx
                            | None => nextStartTimeRef p
                            end;
        sourceNodesRef := [];
        isPlaying := false;
        nodes_created := nodes_created p;
        started := started p;
        halted := rev (filter (fun n => negb (stop_raises n)) (sourceNodesRef p))
                    ++ halted p |}).
Proof.
  unfold Player.stop. unfold bind at 1, get at 1.
  unfold bind at 1. rewrite halt_all.
  unfold bind, modify, get, ret.
  unfold setIsPlaying, set_nextStartTimeRef, set_sourceNodesRef, set_halted.
  cbn.
  destruct (audioContextRef p); reflexivity.
Qed.

(** C6.  In every scheduler state, [stop] returns normally: each
    tracked unit is asked to halt and an error raised by a unit is
    swallowed, the tracked units are emptied, the cursor is set to the
    current time of the output context (before [init] there is no
    context, hence no device clock, and the cursor stays where it was),
    and the playback-active status is false.  A second [stop] returns
    normally too and changes nothing more, and with nothing tracked no
    unit is touched. *)
Theorem stop_halts_and_resets p :
  let p' := exec stop p in
  result stop p = Return tt
  /\ (forall node, In node (sourceNodesRef p) ->
                   stop_raises node = false -> In node (halted p'))
  /\ halted p' = rev (filter (fun n => negb (stop_raises n)) (sourceNodesRef p))
                   ++ halted p
  /\ sourceNodesRef p' = []
  /\ match audioContextRef p with
     | Some ctx => nextStartTimeRef p' = currentTime ctx
     | None => nextStartTimeRef p' = nextStartTimeRef p
     end
  /\ isPlaying p' = false
  /\ started p' = started p
  /\ stop p' = (Return tt, p')
  /\ (sourceNodesRef p = [] -> halted p' = halted p).
Proof.
  intro p'. subst p'. unfold exec, result.
  rewrite (stop_spec (snd (stop p))). rewrite !stop_spec. cbn.
  repeat split.
  - intros node Hin Hok. apply in_or_app. left. apply in_rev.
    rewrite rev_involutive. apply filter_In. split; [exact Hin|].
    now rewrite Hok.
  - destruct (audioContextRef p); reflexivity.
  - destruct (audioContextRef p); reflexivity.
  - intro Hnone. now rewrite Hnone.
Qed.

End Hook.

(** C4.  From the initialised scheduler, whatever the chunks and the
    clock readings at which they arrive, every chunk whose buffer could be
    built is started, in arrival order; each starts no earlier than the
    nominal end (start plus duration) of the one before, and exactly at
    that nominal end when it arrived before it.  In particular chunks of
    0.5 s, 0.3 s and 0.7 s delivered at time 0 start at 0, 0.5 and 0.8 and
    leave the cursor at 1.5 (binary64 arithmetic throughout). *)
Theorem play_schedule_gapless :
  (forall sampleRate_arg createBuffer arrivals,
     let p := run sampleRate_arg createBuffer arrivals ready in
     gapless (started p)
     /\ durations p = prepared_durations sampleRate_arg createBuffer arrivals)
  /\ (let p := run 24000%float webaudio_createBuffer
                   [(0%float, silence 12000); (0%float, silence 7200);
                    (0%float, silence 16800)] ready in
      durations p = [0.5; 0.3; 0.7]%float
      /\ start_times p = [0; 0.5; 0.8]%float
      /\ nextStartTimeRef p = 1.5%float).
Proof.
  split.
  - intros sampleRate_arg createBuffer arrivals p.
    assert (Hready : steady ready).
    { repeat split. cbn. discriminate. }
    split.
    + apply (run_steady sampleRate_arg createBuffer arrivals ready Hready).
    + subst p. rewrite run_durations by (cbn; discriminate). reflexivity.
  - vm_compute. repeat split.
Qed.

(** The recovery scenario of C5: a first chunk ends nominally at 0.5 s,
    the next one arrives when the device clock reads 2 s, and starts at
    2 s. *)
Lemma play_starts_at_max_witness :
  nextStartTimeRef late = 0.5%float
  /\ audioContextRef late = Some {| currentTime := 2%float; suspended := false |}
  /\ exists c,
       started (exec (play 24000%float webaudio_createBuffer (silence 12000)) late)
       = c :: started late
       /\ when c = 2%float.
Proof.
  split; [vm_compute; reflexivity|]. split; [vm_compute; reflexivity|].
  destruct (play_starts_at_max 24000%float webaudio_createBuffer late
              {| currentTime := 2%float; suspended := false |}
              (silence 12000)
              {| numberOfChannels := 1; frames := 12000; sampleRate := 24000%float;
                 duration := 0.5%float;
                 channelData := decodeFrame (repeat 0%Z (N.to_nat 12000)) |}
              ltac:(vm_compute; reflexivity) ltac:(vm_compute; reflexivity))
    as [c [Hstarted [_ [Hwhen _]]]].
  exists c. split; [exact Hstarted|].
  rewrite Hwhen. vm_compute. reflexivity.
Defined.

Lemma play_before_init_witness :
  audioContextRef initial = None
  /\ play 24000%float webaudio_createBuffer "AAAA" initial = (Return tt, initial).
Proof.
  split; [reflexivity|].
  apply (play_before_init 24000%float webaudio_createBuffer initial "AAAA").
  reflexivity.
Defined.

End PlayerFacts.

(* ================================================================== *)
(** * Facts about the session protocol                                  *)
(* ================================================================== *)

Module LiveFacts.

Import Live.
Local Open Scope string_scope.

(** ** Inbound messages *)

Lemma observe_invocations message trace :
  observe message trace = (trace ++ invocations message)%list.
Proof.
  unfold observe, exec, onmessage, invocations, fragment_of, turn_boundary,
    first_part_audio.
  destruct (truthy (opt (opt (serverContent message) outputTranscription) text));
    destruct (is_true (opt (serverContent message) turnComplete)
              || is_true (opt (serverContent message) interrupted));
    destruct (truthy (opt (opt (first (opt (opt (serverContent message) modelTurn)
                                            parts)) inlineData) data));
    unfold bind, record, modify, ret; cbn;
    rewrite <- ?app_assoc, ?app_nil_r; reflexivity.
Qed.

Lemma truthy_nonempty t : t <> "" -> truthy (Some t) = Some t.
Proof. destruct t; [congruence | reflexivity]. Qed.

(** C7, as the code has it.  For every inbound message with
    [turnComplete = true] and a non-empty transcript fragment, the
    transcript callback is invoked with the fragment, then the turn-end
    callback, each exactly once, whether or not [interrupted] is set in
    the same message; only the audio callback may follow. *)
Theorem fragment_then_turn_end message t trace :
  fragment_of message = Some t ->
  t <> "" ->
  opt (serverContent message) turnComplete = Some true ->
  observe message trace
  = (trace ++ Transcribed t :: TurnEnded
       :: match first_part_audio message with
          | Some d => [AudioReceived d]
          | None => []
          end)%list
  /\ count is_transcribed (observe message []) = 1%nat
  /\ count is_turn_ended (observe message []) = 1%nat.
Proof.
  intros Hfragment Hnonempty Hturn.
  assert (Hinv : invocations message
                 = Transcribed t :: TurnEnded
                     :: match first_part_audio message with
                        | Some d => [AudioReceived d]
                        | None => []
                        end).
  { unfold invocations, turn_boundary.
    rewrite Hfragment, (truthy_nonempty t Hnonempty), Hturn. reflexivity. }
  rewrite !observe_invocations, Hinv.
  repeat split; destruct (first_part_audio message); reflexivity.
Qed.

Lemma fragment_then_turn_end_witness :
  observe final_fragment [] = [Transcribed "Tell me more."; TurnEnded]
  /\ count is_transcribed (observe final_fragment []) = 1%nat
  /\ count is_turn_ended (observe final_fragment []) = 1%nat.
Proof.
  apply (fragment_then_turn_end final_fragment "Tell me more." []).
  - reflexivity.
  - discriminate.
  - reflexivity.
Defined.

(** C7, as it is worded, fails on a message whose fragment is the empty
    string: the turn-end callback fires, the transcript callback does
    not. *)
Lemma empty_fragment_is_not_delivered :
  fragment_of empty_fragment = Some ""
  /\ opt (serverContent empty_fragment) turnComplete = Some true
  /\ observe empty_fragment [] = [TurnEnded]
  /\ count is_transcribed (observe empty_fragment []) = 0%nat.
Proof. repeat split. Qed.

(** C9, as the code has it.  For every inbound message the callbacks
    fire in this order, each at most once: the transcript callback when
    the [outputTranscription] text is present and non-empty, the turn-end
    callback when [turnComplete] or [interrupted] is true, and the audio
    callback when the first [modelTurn] part carries non-empty inline
    data; a message carrying several of these signals fires all of
    them. *)
Theorem onmessage_fires_each_applicable message trace :
  observe message trace
  = (trace
     ++ match truthy (fragment_of message) with
        | Some t => [Transcribed t]
        | None => []
        end
     ++ (if turn_boundary message then [TurnEnded] else [])
     ++ match first_part_audio message with
        | Some d => [AudioReceived d]
        | None => []
        end)%list.
Proof. rewrite observe_invocations. reflexivity. Qed.

(** C9, as it is worded, fails on a message whose audio payload sits in
    the second part: a payload is present in the parts, and the audio
    callback is not invoked. *)
Lemma audio_in_later_part_is_dropped :
  audio_payloads audio_in_second_part = ["AAAA"]
  /\ observe audio_in_second_part [] = []
  /\ count is_audio (observe audio_in_second_part []) = 0%nat.
Proof. repeat split. Qed.

(** ** Outbound frames *)

(** C8.  For every chunk and every state of the service, the promise
    [sendAudioChunk] returns is never rejected.  Without a session promise
    the call does nothing.  With an open channel the chunk goes to the
    transport as one frame tagged ["audio/pcm;rate=16000"]; when the
    transport raises, or the session promise was rejected, the error is
    written to the console and the call still resolves. *)
Theorem sendAudioChunk_never_throws transport chunk s :
  let r := fst (sendAudioChunk transport chunk s) in
  let s' := snd (sendAudioChunk transport chunk s) in
  let frame := {| media := {| mimeType := "audio/pcm;rate=16000";
                              media_data := chunk |} |} in
  (forall e, r <> RejectedWith e)
  /\ sessionPromise s' = sessionPromise s
  /\ (sessionPromise s = None -> r = Resolved /\ s' = s)
  /\ (forall session, sessionPromise s = Some (Fulfilled session) ->
        r = Resolved
        /\ match transport session frame with
           | None =>
               wire s' = (wire s ++ [(session, frame)])%list
               /\ console s' = console s
           | Some e =>
               wire s' = wire s
               /\ console s'
                  = (console s ++ [ConsoleError "Error sending audio chunk" e])%list
           end)
  /\ (forall e, sessionPromise s = Some (Rejected e) ->
        r = Resolved
        /\ wire s' = wire s
        /\ console s'
           = (console s ++ [ConsoleError "Error sending audio chunk" e])%list).
Proof.
  intros r s' frame. subst r s' frame. unfold sendAudioChunk.
  destruct (sessionPromise s) as [[|session|e]|] eqn:Hpromise; cbn.
  - repeat split; try (intros; discriminate); assumption.
  - unfold try_catch, bind, lift, sendRealtimeInput, console_error, modify, settle.
    destruct (transport session _) as [e|] eqn:Ht; cbn;
      repeat split; try (intros; discriminate); try assumption;
      match goal with H : Some _ = Some _ |- _ => injection H as <- end;
      rewrite Ht; split; reflexivity.
  - unfold try_catch, bind, lift, console_error, modify, settle. cbn.
    repeat split; try (intros; discriminate); try assumption;
      match goal with H : Some _ = Some _ |- _ => now injection H as <- end.
  - repeat split; try (intros; discriminate); try assumption; reflexivity.
Qed.

End LiveFacts.


(* ================================================================== *)
(** * More about the codec: saturation, loss, and the way back          *)
(* ================================================================== *)

Module CodecMore.

Import Codec Pcm.
Local Open Scope Z_scope.

Lemma bytes_of_int16_view s rest :
  int16 s ->
  exists lo hi,
    bytes_of_int16 s = [lo; hi]
    /\ int16_view (lo :: hi :: rest)
       = match int16_view rest with
         | Throw e => Throw e
         | Return samples => Return (s :: samples)
         end.
Proof.
  intros Hs. unfold int16 in Hs. unfold bytes_of_int16.
  set (u := s mod 65536).
  assert (Hu : 0 <= u < 65536) by (apply Z.mod_pos_bound; lia).
  assert (Hlo : 0 <= u mod 256 < 256) by (apply Z.mod_pos_bound; lia).
  assert (Hhi : 0 <= u / 256 < 256).
  { split; [apply Z.div_pos; lia | apply Z.div_lt_upper_bound; lia]. }
  destruct (Byte.of_N (Z.to_N (u mod 256))) as [lo|] eqn:Elo;
    [|apply Byte.of_N_None_iff in Elo; lia].
  destruct (Byte.of_N (Z.to_N (u / 256))) as [hi|] eqn:Ehi;
    [|apply Byte.of_N_None_iff in Ehi; lia].
  exists lo, hi. split; [reflexivity|].
  apply Byte.to_of_N in Elo, Ehi.
  cbn [int16_view]. rewrite Elo, Ehi, !Z2N.id by lia.
  replace (u mod 256 + 256 * (u / 256)) with u
    by (rewrite (Z.div_mod u 256) at 1; lia).
  replace (if u <? 32768 then u else u - 65536) with s; [reflexivity|].
  subst u. destruct (Z.ltb_spec (s mod 65536) 32768) as [H|H];
    revert H; Z.to_euclidean_division_equations; lia.
Qed.

(** The byte view of 16-bit samples reads back as the same samples. *)
Lemma int16_view_buffer samples :
  Forall int16 samples ->
  int16_view (buffer_of_int16 samples) = Return samples
  /\ List.length (buffer_of_int16 samples) = (2 * List.length samples)%nat.
Proof.
  induction 1 as [|s samples Hs _ [IHv IHl]]; [split; reflexivity|].
  unfold buffer_of_int16 in *. cbn [flat_map].
  destruct (bytes_of_int16_view s (flat_map bytes_of_int16 samples) Hs)
    as [lo [hi [Hb Hv]]].
  rewrite Hb. cbn [app]. rewrite Hv, IHv. split; [reflexivity|].
  cbn [List.length]. rewrite IHl. lia.
Qed.

Lemma transport_bytes_back (b : list byte) :
  fromTransportText (arrayBufferToBase64 b) = Return b.
Proof.
  unfold fromTransportText, arrayBufferToBase64.
  rewrite Base64Facts.atob_btoa, CodecFacts.binary_string_of_buffer.
  cbn [String.append].
  rewrite list_ascii_of_string_of_list_ascii, map_map.
  f_equal. rewrite <- (map_id b) at 2. apply map_ext.
  intro x. apply byte_of_ascii_of_byte.
Qed.

Lemma encoded_samples_int16 inputData : Forall int16 (float32ToInt16 inputData).
Proof.
  apply Forall_forall. intros y Hy. unfold float32ToInt16 in Hy.
  apply in_map_iff in Hy. destruct Hy as [x [<- _]].
  rewrite CodecFacts.ToInt16_scaled. apply CodecFacts.scaled_int_range.
Qed.

(** X1.  What the capture callback sends for a frame decodes, by the steps
    at the start of [play], to exactly the 16-bit samples of that frame, two
    bytes per sample; neither step throws. *)
Theorem capture_frame_decodes (inputData : list number) :
  exists bytes,
    fromTransportText (onaudioprocess inputData) = Return bytes
    /\ List.length bytes = (2 * List.length inputData)%nat
    /\ int16_view bytes = Return (float32ToInt16 inputData).
Proof.
  exists (buffer_of_int16 (float32ToInt16 inputData)).
  unfold onaudioprocess. rewrite transport_bytes_back.
  destruct (int16_view_buffer _ (encoded_samples_int16 inputData)) as [Hv Hl].
  repeat split; [|exact Hv].
  rewrite Hl. unfold float32ToInt16. now rewrite length_map.
Qed.

(** X2.  Samples at or beyond the ends of [-1,1], the infinities included,
    saturate at 32767 and -32768; a negative sample never encodes above
    zero and a non-negative one never below; zero encodes to zero. *)
Theorem float32ToInt16_saturates :
  float32ToInt16 [Infinity false; Infinity true] = [32767; -32768]
  /\ (forall m e, (1 <= Qvalue m e)%Q -> float32ToInt16 [Dyadic m e] = [32767])
  /\ (forall m e, (Qvalue m e <= -1)%Q -> float32ToInt16 [Dyadic m e] = [-32768])
  /\ (forall m e, (Qvalue m e < 0)%Q ->
        exists y, float32ToInt16 [Dyadic m e] = [y] /\ y <= 0)
  /\ (forall m e, (0 <= Qvalue m e)%Q ->
        exists y, float32ToInt16 [Dyadic m e] = [y] /\ 0 <= y)
  /\ (forall e, float32ToInt16 [Dyadic 0 e] = [0]).
Proof.
  assert (Hone : forall m e,
            float32ToInt16 [Dyadic m e] = [scaled_int (Dyadic m e)]).
  { intros. cbn [float32ToInt16 map]. now rewrite CodecFacts.ToInt16_scaled. }
  split; [reflexivity|].
  repeat split.
  - intros m e H. rewrite Hone. f_equal.
    pose proof (CodecFacts.denominator_pos e) as Hd.
    unfold Qle, Qvalue in H. cbn [Qnum Qden] in H.
    rewrite Z2Pos.id in H by lia.
    unfold scaled_int. rewrite CodecFacts.clamp_dyadic.
    destruct (Z.leb_spec (denominator e) (numerator m e)); [reflexivity | lia].
  - intros m e H. rewrite Hone. f_equal.
    pose proof (CodecFacts.denominator_pos e) as Hd.
    unfold Qle, Qvalue in H. cbn [Qnum Qden] in H.
    rewrite Z2Pos.id in H by lia.
    unfold scaled_int. rewrite CodecFacts.clamp_dyadic.
    destruct (Z.leb_spec (denominator e) (numerator m e)); [lia|].
    destruct (Z.leb_spec (numerator m e) (- denominator e)); [reflexivity | lia].
  - intros m e H. rewrite Hone. eexists. split; [reflexivity|].
    pose proof (CodecFacts.denominator_pos e) as Hd.
    unfold Qlt, Qvalue in H. cbn [Qnum Qden] in H.
    unfold scaled_int. rewrite CodecFacts.clamp_dyadic.
    destruct (Z.leb_spec (denominator e) (numerator m e)); [lia|].
    destruct (Z.leb_spec (numerator m e) (- denominator e));
      [vm_compute; discriminate|].
    unfold scale. rewrite CodecFacts.ltb_const_r.
    destruct (Z.ltb_spec (numerator m e) (0 * denominator e)); [|lia].
    cbn [mul_const]. rewrite CodecFacts.truncate_quot, CodecFacts.numerator_mul.
    change 0x8000 with 32768.
    replace (numerator m e * 32768) with (- (- numerator m e * 32768)) by ring.
    rewrite Z.quot_opp_l by lia.
    assert (0 <= Z.quot (- numerator m e * 32768) (denominator e))
      by (apply Z.quot_pos; lia).
    lia.
  - intros m e H. rewrite Hone. eexists. split; [reflexivity|].
    pose proof (CodecFacts.denominator_pos e) as Hd.
    unfold Qle, Qvalue in H. cbn [Qnum Qden] in H.
    unfold scaled_int. rewrite CodecFacts.clamp_dyadic.
    destruct (Z.leb_spec (denominator e) (numerator m e));
      [vm_compute; discriminate|].
    destruct (Z.leb_spec (numerator m e) (- denominator e)); [lia|].
    unfold scale. rewrite CodecFacts.ltb_const_r.
    destruct (Z.ltb_spec (numerator m e) (0 * denominator e)); [lia|].
    cbn [mul_const]. rewrite CodecFacts.truncate_quot, CodecFacts.numerator_mul.
    change 0x7FFF with 32767. apply Z.quot_pos; lia.
  - intro e. rewrite Hone. f_equal.
    unfold scaled_int. rewrite CodecFacts.clamp_dyadic.
    pose proof (CodecFacts.denominator_pos e) as Hd.
    assert (Hn : numerator 0 e = 0) by (unfold numerator; destruct (0 <=? e); lia).
    rewrite Hn.
    destruct (Z.leb_spec (denominator e) 0); [lia|].
    destruct (Z.leb_spec 0 (- denominator e)); [lia|].
    unfold scale. rewrite CodecFacts.ltb_const_r, Hn.
    destruct (Z.ltb_spec 0 (0 * denominator e)); [lia|].
    cbn [mul_const]. rewrite CodecFacts.truncate_quot, CodecFacts.numerator_mul, Hn.
    reflexivity.
Qed.

(** X3.  Encoding a finite sample and decoding it again ([s / 32768], as
    [play] does) gives a value within 2^-14 of the sample clamped to
    [-1,1]: the loss is the truncation plus the 32767/32768 mismatch of the
    two scales, and nothing more. *)
Theorem decode_encode_error (m e : Z) :
  decodeFrame (float32ToInt16 [Dyadic m e])
  = [Dyadic (scaled_int (Dyadic m e)) (-15)]
  /\ (Qabs (Qmax (-1) (Qmin 1 (Qvalue m e))
            - decoded_value (scaled_int (Dyadic m e))) < 1 # 16384)%Q.
Proof.
  split.
  { cbn [float32ToInt16 map decodeFrame].
    now rewrite CodecFacts.ToInt16_scaled. }
  unfold scaled_int. rewrite CodecFacts.clamp_dyadic.
  pose proof (CodecFacts.denominator_pos e) as Hd.
  unfold decoded_value, Qvalue at 2.
  change (numerator ?y (-15)) with y.
  change (Z.to_pos (denominator (-15))) with 32768%positive.
  unfold Qvalue.
  assert (HP : Z.pos (Z.to_pos (denominator e)) = denominator e)
    by (apply Z2Pos.id; lia).
  unfold Qmin, Qmax, GenericMinMax.gmin, GenericMinMax.gmax, Qcompare.
  cbn [Qnum Qden]. rewrite HP.
  destruct (Z.leb_spec (denominator e) (numerator m e)) as [H1|H1].
  - destruct (Z.compare_spec (1 * denominator e) (numerator m e * 1));
      try lia; reflexivity.
  - destruct (Z.compare_spec (1 * denominator e) (numerator m e * 1));
      try lia.
    cbn [Qnum Qden]. rewrite HP.
    destruct (Z.leb_spec (numerator m e) (- denominator e)) as [H2|H2].
    + destruct (Z.compare_spec (-1 * denominator e) (numerator m e * 1));
        try lia; reflexivity.
    + destruct (Z.compare_spec (-1 * denominator e) (numerator m e * 1));
        try lia.
      unfold scale. rewrite CodecFacts.ltb_const_r.
      destruct (Z.ltb_spec (numerator m e) (0 * denominator e)) as [H3|H3];
        cbn [mul_const];
        rewrite CodecFacts.truncate_quot, CodecFacts.numerator_mul;
        unfold Qlt, Qabs, Qminus, Qplus, Qopp; cbn [Qnum Qden];
        rewrite Pos2Z.inj_mul, HP.
      * change 0x8000 with 32768.
        assert (Hq : - denominator e
                     < numerator m e * 32768
                       - Z.quot (numerator m e * 32768) (denominator e)
                         * denominator e <= 0).
        { Z.to_euclidean_division_equations. nia. }
        lia.
      * change 0x7FFF with 32767.
        assert (Hq : 0 <= numerator m e * 32767
                           - Z.quot (numerator m e * 32767) (denominator e)
                             * denominator e < denominator e).
        { Z.to_euclidean_division_equations. nia. }
        lia.
Qed.

(** ** Order *)

Lemma Qtruncate_floor q : (0 <= q)%Q -> Qtruncate q = Qfloor q.
Proof.
  destruct q as [n d]. unfold Qle, Qtruncate, Qfloor. cbn [Qnum Qden].
  intro H. apply Z.quot_div_nonneg; lia.
Qed.

Lemma Qtruncate_ceiling q : (q <= 0)%Q -> Qtruncate q = Qceiling q.
Proof.
  destruct q as [n d]. unfold Qle, Qtruncate, Qceiling, Qfloor, Qopp.
  cbn [Qnum Qden]. intro H.
  rewrite <- (Z.opp_involutive n) at 1.
  rewrite Z.quot_opp_l by lia. f_equal. apply Z.quot_div_nonneg; lia.
Qed.

Lemma Qtruncate_mono q r : (q <= r)%Q -> Qtruncate q <= Qtruncate r.
Proof.
  intro H. destruct (Qlt_le_dec q 0) as [Hq|Hq].
  - rewrite (Qtruncate_ceiling q) by lra.
    destruct (Qlt_le_dec 0 r) as [Hr|Hr].
    + rewrite (Qtruncate_floor r) by lra.
      assert (Qceiling q <= Qceiling 0) by (apply Qceiling_resp_le; lra).
      assert (Qfloor 0 <= Qfloor r) by (apply Qfloor_resp_le; lra).
      change (Qceiling 0) with 0 in *. change (Qfloor 0) with 0 in *. lia.
    + rewrite (Qtruncate_ceiling r) by lra. now apply Qceiling_resp_le.
  - rewrite (Qtruncate_floor q), (Qtruncate_floor r) by lra.
    now apply Qfloor_resp_le.
Qed.

Lemma scale_spec_mono a b : (a <= b)%Q -> (scale_spec a <= scale_spec b)%Q.
Proof.
  intro H. unfold scale_spec.
  destruct (Qlt_le_dec a 0), (Qlt_le_dec b 0); lra.
Qed.

(** X4.  The encoder keeps the order of samples: of two finite samples,
    the larger never encodes to the smaller integer. *)
Theorem float32ToInt16_monotone m1 e1 m2 e2 :
  (Qvalue m1 e1 <= Qvalue m2 e2)%Q ->
  exists y1 y2,
    float32ToInt16 [Dyadic m1 e1; Dyadic m2 e2] = [y1; y2] /\ y1 <= y2.
Proof.
  intro H. exists (scaled_int (Dyadic m1 e1)), (scaled_int (Dyadic m2 e2)).
  split.
  - cbn [float32ToInt16 map]. now rewrite !CodecFacts.ToInt16_scaled.
  - rewrite !CodecFacts.scaled_int_truncating. cbn [clamp_spec].
    apply Qtruncate_mono, scale_spec_mono.
    apply Q.max_le_compat_l, Q.min_le_compat_l, H.
Qed.

Lemma float32ToInt16_monotone_witness :
  (Qvalue 1 (-2) <= Qvalue 3 (-3))%Q
  /\ exists y1 y2,
       float32ToInt16 [Dyadic 1 (-2); Dyadic 3 (-3)] = [y1; y2] /\ y1 <= y2.
Proof.
  assert (H : (Qvalue 1 (-2) <= Qvalue 3 (-3))%Q) by (vm_compute; discriminate).
  split; [exact H|]. exact (float32ToInt16_monotone 1 (-2) 3 (-3) H).
Defined.

(** ** Shape of the transport text *)

Lemma encode_shape bs :
  List.length (Base64.encode bs) = (4 * ((List.length bs + 2) / 3))%nat
  /\ Forall (fun c => In c (list_ascii_of_string Base64.alphabet)
                      \/ c = Base64.pad) (Base64.encode bs).
Proof.
  assert (Hin : forall g i, In (Base64.char_of_sextet (Base64.sextet g i))
                              (list_ascii_of_string Base64.alphabet)).
  { intros g i. unfold Base64.char_of_sextet. apply nth_In.
    pose proof (Base64Facts.sextet_lt g i) as Hlt.
    change (List.length (list_ascii_of_string Base64.alphabet)) with 64%nat.
    lia. }
  induction bs as [| a | a b | a b c rest [IHl IHf]] using Base64Facts.list_ind3.
  - split; [reflexivity | constructor].
  - split; [reflexivity|]. cbn [Base64.encode].
    repeat (apply Forall_cons;
            [first [left; apply Hin | right; reflexivity]|]).
    apply Forall_nil.
  - split; [reflexivity|]. cbn [Base64.encode].
    repeat (apply Forall_cons;
            [first [left; apply Hin | right; reflexivity]|]).
    apply Forall_nil.
  - split.
    + cbn [Base64.encode List.length]. rewrite IHl.
      replace (S (S (S (List.length rest))) + 2)%nat
        with (1 * 3 + (List.length rest + 2))%nat by lia.
      rewrite Nat.div_add_l by discriminate. lia.
    + cbn [Base64.encode].
      do 4 (apply Forall_cons; [left; apply Hin|]). exact IHf.
Qed.

(** X5.  The transport text of [n] bytes has [4 * ceil(n / 3)] characters,
    each a letter, a digit, [+], [/] or the padding [=]. *)
Theorem transport_text_shape (b : list byte) :
  String.length (arrayBufferToBase64 b)
  = (4 * ((List.length b + 2) / 3))%nat
  /\ Forall (fun c => In c (list_ascii_of_string Base64.alphabet)
                      \/ c = Base64.pad)
            (list_ascii_of_string (arrayBufferToBase64 b)).
Proof.
  unfold arrayBufferToBase64, Base64.btoa.
  rewrite CodecFacts.binary_string_of_buffer. cbn [String.append].
  rewrite !list_ascii_of_string_of_list_ascii.
  destruct (encode_shape (map N_of_ascii (map String_fromCharCode b)))
    as [Hl Hf].
  rewrite !length_map in Hl. split; [|exact Hf].
  rewrite <- Hl.
  generalize (Base64.encode (map N_of_ascii (map String_fromCharCode b))).
  induction l as [|c l IH]; cbn; [reflexivity | now rewrite IH].
Qed.

End CodecMore.


(* ================================================================== *)
(** * More about the scheduler: what it keeps over time                 *)
(* ================================================================== *)

Module TimelineFacts.

Import Codec Pcm Player Timeline.

Section Hook.

Variable sampleRate_arg : float.
Variable createBuffer : N -> N -> float -> outcome AudioBuffer.
Variable stop_raises : AudioBufferSourceNode -> bool.

Local Abbreviation play := (Player.play sampleRate_arg createBuffer).
Local Abbreviation prepare := (Player.prepare sampleRate_arg createBuffer).
Local Abbreviation stop := (Player.stop stop_raises).
Local Abbreviation perform := (Timeline.perform sampleRate_arg createBuffer stop_raises).
Local Abbreviation history := (Timeline.history sampleRate_arg createBuffer stop_raises).

(** ** The five actions, state to state *)

Lemma play_cases p chunk :
  (exists e, play chunk p = (Throw e, p)
             /\ exists ctx, audioContextRef p = Some ctx /\ prepare chunk = Throw e)
  \/ (audioContextRef p = None /\ play chunk p = (Return tt, p))
  \/ (exists ctx b, audioContextRef p = Some ctx /\ prepare chunk = Return b
                    /\ play chunk p = (Return tt, scheduled ctx b p)).
Proof.
  destruct (audioContextRef p) as [ctx|] eqn:Hctx.
  - rewrite (PlayerFacts.play_spec sampleRate_arg createBuffer p ctx chunk Hctx).
    destruct (prepare chunk) as [b|e].
    + right. right. exists ctx, b. repeat split.
    + left. exists e. split; [reflexivity|]. exists ctx. split; reflexivity.
  - right. left. split; [reflexivity|].
    unfold Player.play, bind, get. now rewrite Hctx.
Qed.

Lemma onended_spec source p :
  exec (onended source) p =
    let rest := filter (fun s => negb (same_node s source)) (sourceNodesRef p) in
    match rest with
    | [] => setIsPlaying false (set_sourceNodesRef [] p)
    | _ => set_sourceNodesRef rest p
    end.
Proof.
  unfold onended, exec, bind, modify, get, ret. cbn.
  destruct (filter _ (sourceNodesRef p)); reflexivity.
Qed.

Lemma init_spec p :
  exec init p =
    set_audioContextRef
      (Some match audioContextRef p with
            | None => {| currentTime := 0%float; suspended := false |}
            | Some ctx => {| currentTime := currentTime ctx; suspended := false |}
            end) p.
Proof.
  unfold init, exec, modify. cbn.
  destruct (audioContextRef p) as [[t [|]]|]; reflexivity.
Qed.

Lemma fold_invariant (P : Player -> Prop) :
  (forall p a, P p -> P (perform p a)) ->
  forall actions p, P p -> P (fold_left perform actions p).
Proof.
  intros Hstep actions. induction actions as [|a actions IH]; intros p Hp.
  - exact Hp.
  - cbn. apply IH. now apply Hstep.
Qed.

(** ** The playback-active status *)

Lemma perform_status p a : isPlaying p = tracking p -> isPlaying (perform p a) = tracking (perform p a).
Proof.
  intro Hp. destruct a as [|t|chunk|source|]; cbn [Timeline.perform].
  - rewrite init_spec. exact Hp.
  - unfold tick. destruct (audioContextRef p); exact Hp.
  - unfold exec.
    destruct (play_cases p chunk)
      as [[e [-> _]]|[[_ ->]|[ctx [b [_ [_ ->]]]]]]; cbn [snd]; try exact Hp.
    unfold scheduled, tracking. cbn. now destruct (sourceNodesRef p).
  - rewrite onended_spec. cbn zeta.
    destruct (filter _ (sourceNodesRef p)) as [|n rest] eqn:Hf; [reflexivity|].
    unfold tracking in *. cbn.
    destruct (sourceNodesRef p); [discriminate Hf | exact Hp].
  - unfold exec. rewrite PlayerFacts.stop_spec. reflexivity.
Qed.

(** X7.  Through any sequence of [init], [play], [stop], clock movements
    and units finishing, the playback-active status is true exactly when
    some unit is tracked. *)
Theorem status_tells_tracking (actions : list Action) :
  isPlaying (history actions) = tracking (history actions).
Proof.
  unfold Timeline.history.
  apply (fold_invariant (fun p => isPlaying p = tracking p)).
  - apply perform_status.
  - reflexivity.
Qed.

(** ** Unit identities *)

Lemma perform_identities p a :
  identified p -> identified (perform p a).
Proof.
  intros [Hids [Htracked [Hnodup Hhalted]]].
  destruct a as [|t|chunk|source|]; cbn [Timeline.perform].
  - rewrite init_spec. repeat split; assumption.
  - unfold tick. destruct (audioContextRef p); repeat split; assumption.
  - unfold exec.
    destruct (play_cases p chunk)
      as [[e [-> _]]|[[_ ->]|[ctx [b [_ [_ ->]]]]]]; cbn [snd];
      try (repeat split; assumption).
    unfold identified, started_units, scheduled in *. cbn -[seq].
    repeat split.
    + rewrite Hids, seq_S, rev_unit. reflexivity.
    + intros n Hn. apply in_app_or in Hn. destruct Hn as [Hn|[<-|[]]].
      * right. now apply Htracked.
      * left. reflexivity.
    + rewrite map_app. cbn. apply NoDup_app; [exact Hnodup | | ].
      * constructor; [intros [] | constructor].
      * intros k Hk [<-|[]].
        apply in_map_iff in Hk. destruct Hk as [n [Hid Hn]].
        apply Htracked, (in_map node_id) in Hn.
        rewrite Hids, <- in_rev, in_seq in Hn. lia.
    + intros n Hn. right. now apply Hhalted.
  - rewrite onended_spec. cbn zeta.
    assert (Hincl : incl (filter (fun s => negb (same_node s source))
                                 (sourceNodesRef p)) (started_units p)).
    { intros n Hn. apply filter_In in Hn. now apply Htracked. }
    assert (Hnd : NoDup (map node_id (filter (fun s => negb (same_node s source))
                                             (sourceNodesRef p)))).
    { clear - Hnodup. induction (sourceNodesRef p) as [|n l IH]; [constructor|].
      cbn in *. inversion_clear Hnodup as [|? ? Hn Hl].
      destruct (negb (same_node n source)); [|now apply IH].
      cbn. constructor; [|now apply IH].
      intro Hin. apply Hn. apply in_map_iff in Hin.
      destruct Hin as [x [Hx Hin]]. apply filter_In in Hin.
      apply in_map_iff. exists x. now split. }
    destruct (filter _ (sourceNodesRef p)) as [|n rest];
      unfold identified, started_units in *; cbn; repeat split;
      try assumption; try constructor; intros x [].
  - unfold exec. rewrite PlayerFacts.stop_spec.
    unfold identified, started_units in *. cbn.
    repeat split; try assumption; try constructor; try (intros x []).
    intros n Hn. apply in_app_or in Hn. destruct Hn as [Hn|Hn].
    + apply in_rev, filter_In in Hn. now apply Htracked.
    + now apply Hhalted.
Qed.

(** X8.  Through any sequence of actions, every unit the device was asked
    to start has its own identity and was started once; every tracked unit
    is one of them and none is tracked twice; and [stop] has only ever
    halted units that had been started. *)
Theorem units_are_started_once (actions : list Action) :
  let p := history actions in
  NoDup (map node_id (started_units p))
  /\ List.length (started_units p) = nodes_created p
  /\ incl (sourceNodesRef p) (started_units p)
  /\ NoDup (map node_id (sourceNodesRef p))
  /\ incl (halted p) (started_units p).
Proof.
  intro p.
  assert (H : identified p).
  { subst p. unfold Timeline.history.
    apply (fold_invariant identified); [apply perform_identities|].
    repeat split; try constructor; intros x []. }
  destruct H as [Hids [Htracked [Hnodup Hhalted]]].
  repeat split; try assumption.
  - rewrite Hids. apply NoDup_rev, seq_NoDup.
  - rewrite <- (length_map node_id), Hids, length_rev, length_seq. reflexivity.
Qed.

(** X9.  Until [init] is called nothing happens: whatever is played,
    stopped or reported finished, and however the clock moves, the
    scheduler stays in its initial state. *)
Theorem nothing_before_init (actions : list Action) :
  ~ In Init actions -> history actions = initial.
Proof.
  unfold Timeline.history.
  assert (H : forall l, ~ In Init l -> fold_left perform l initial = initial).
  { induction l as [|a l IH]; intro Hl; [reflexivity|].
    cbn [fold_left].
    replace (perform initial a) with initial.
    - apply IH. intro Hin. apply Hl. now right.
    - destruct a as [|t|chunk|source|]; try reflexivity.
      exfalso. apply Hl. now left. }
  apply H.
Qed.

(** X10.  [init] is idempotent and never replaces the output context: a
    second call changes nothing, an existing context keeps its clock, and
    the cursor, the tracked units, the status and the device log are left
    alone. *)
Theorem init_keeps_context p :
  exec init (exec init p) = exec init p
  /\ (exists ctx, audioContextRef (exec init p) = Some ctx
                  /\ suspended ctx = false
                  /\ forall old, audioContextRef p = Some old ->
                                 currentTime ctx = currentTime old)
  /\ nextStartTimeRef (exec init p) = nextStartTimeRef p
  /\ sourceNodesRef (exec init p) = sourceNodesRef p
  /\ isPlaying (exec init p) = isPlaying p
  /\ started (exec init p) = started p.
Proof.
  rewrite !init_spec. unfold set_audioContextRef. cbn. repeat split.
  - destruct (audioContextRef p); reflexivity.
  - eexists. split; [reflexivity|]. split.
    + destruct (audioContextRef p); reflexivity.
    + intros old Hold. rewrite Hold. reflexivity.
Qed.

(** ** How the calls compose *)

(** X11.  A [play] that rejects has changed nothing: the scheduler is
    exactly as it was, and the error is the one raised while the chunk was
    decoded or its buffer created. *)
Theorem play_rejects_cleanly p chunk e :
  result (play chunk) p = Throw e ->
  exec (play chunk) p = p /\ prepare chunk = Throw e.
Proof.
  unfold result, exec.
  destruct (play_cases p chunk)
    as [[e' [-> [ctx [_ He]]]]|[[_ ->]|[ctx [b [_ [_ ->]]]]]]; cbn [fst snd];
    intro H; try discriminate H.
  injection H as <-. split; [reflexivity | exact He].
Qed.

(** X12.  After [stop], what had been queued no longer delays anything:
    the next chunk starts at the device clock (at the clock reading of the
    [stop] if the clock has not advanced), and is then the only unit
    tracked. *)
Theorem stop_flushes_queue p ctx t chunk b :
  audioContextRef p = Some ctx ->
  prepare chunk = Return b ->
  let p' := exec (play chunk) (tick t (exec stop p)) in
  exists c,
    started p' = c :: started p
    /\ when c = (if (currentTime ctx <? t)%float then t else currentTime ctx)
    /\ sourceNodesRef p' = [unit_started c]
    /\ buffer (unit_started c) = b
    /\ isPlaying p' = true.
Proof.
  intros Hctx Hb p'. subst p'.
  pose proof (f_equal snd (PlayerFacts.stop_spec stop_raises p)) as Hstop.
  cbn [snd] in Hstop. rewrite Hctx in Hstop.
  unfold exec. rewrite Hstop. unfold tick. cbn [audioContextRef].
  match goal with
  | |- context [Player.play _ _ _ ?q] =>
      rewrite (PlayerFacts.play_spec sampleRate_arg createBuffer q
                 {| currentTime := t; suspended := suspended ctx |} chunk)
        by reflexivity
  end.
  rewrite Hb. cbn [snd]. unfold scheduled. cbn.
  eexists. repeat split.
Qed.

(** X13.  On a scheduler that got to its state by the hook's own
    functions, a unit that is played and then finishes leaves the tracked
    units and the status as they were before it. *)
Theorem played_unit_ends actions ctx chunk b :
  let p := history actions in
  audioContextRef p = Some ctx ->
  prepare chunk = Return b ->
  let source := {| node_id := nodes_created p; buffer := b |} in
  let p' := perform (perform p (Play chunk)) (Ended source) in
  In source (sourceNodesRef (perform p (Play chunk)))
  /\ sourceNodesRef p' = sourceNodesRef p
  /\ isPlaying p' = isPlaying p.
Proof.
  intros p Hctx Hb source p'.
  assert (Hid : identified p).
  { subst p. unfold Timeline.history.
    apply (fold_invariant identified); [apply perform_identities|].
    repeat split; try constructor; intros x []. }
  assert (Hstatus : isPlaying p = tracking p) by apply status_tells_tracking.
  destruct Hid as [Hids [Htracked _]].
  assert (Hplay : perform p (Play chunk) = scheduled ctx b p).
  { cbn [Timeline.perform]. unfold exec.
    now rewrite (PlayerFacts.play_spec sampleRate_arg createBuffer p ctx chunk Hctx), Hb. }
  subst p'. rewrite Hplay. split.
  { unfold scheduled. cbn. apply in_or_app. right. now left. }
  cbn [Timeline.perform]. rewrite onended_spec. cbn zeta.
  assert (Hfilter : filter (fun s => negb (same_node s source))
                           (sourceNodesRef (scheduled ctx b p))
                    = sourceNodesRef p).
  { unfold scheduled. cbn [sourceNodesRef]. rewrite filter_app. cbn [filter].
    fold source. unfold same_node at 2. rewrite Nat.eqb_refl. cbn [negb].
    rewrite app_nil_r.
    apply forallb_filter_id. apply forallb_forall. intros n Hn.
    apply Htracked, (in_map node_id) in Hn.
    rewrite Hids, <- in_rev, in_seq in Hn.
    unfold same_node, source. cbn [node_id].
    apply negb_true_iff, Nat.eqb_neq. lia. }
  rewrite Hfilter. unfold tracking in Hstatus.
  destruct (sourceNodesRef p) eqn:Hnodes; cbn; split; congruence.
Qed.

(** X6.  A chunk of 16-bit samples is handed to the device as a buffer of
    one frame per sample holding the values [s / 32768], when the platform
    creates the buffer; [play] raises only what [createBuffer] raises. *)
Theorem play_decodes_pcm (samples : list Z) :
  Forall int16 samples ->
  prepare (pcm_chunk samples)
  = match createBuffer 1 (N.of_nat (List.length samples)) sampleRate_arg with
    | Throw e => Throw e
    | Return buf =>
        Return {| numberOfChannels := numberOfChannels buf;
                  frames := frames buf; sampleRate := sampleRate buf;
                  duration := duration buf;
                  channelData := map (fun s => Dyadic s (-15)) samples |}
    end.
Proof.
  intro Hs. unfold Player.prepare, pcm_chunk.
  rewrite CodecMore.transport_bytes_back.
  destruct (CodecMore.int16_view_buffer samples Hs) as [-> _].
  unfold decodeFrame. now rewrite length_map.
Qed.

(** ** Inbound messages reaching the scheduler *)

Local Abbreviation deliver := (Timeline.deliver sampleRate_arg createBuffer stop_raises).

Lemma deliver_spec message p :
  deliver message p =
    (Return tt,
     let p1 := if Live.turn_boundary message then exec stop p else p in
     match Live.first_part_audio message with
     | Some d => exec (play d) p1
     | None => p1
     end).
Proof.
  unfold Timeline.deliver, Live.onmessage, Live.turn_boundary,
    Live.first_part_audio, Timeline.onTurnEnd, Timeline.handleAiAudio.
  destruct (Live.truthy (Live.opt (Live.opt (Live.serverContent message)
                                            Live.outputTranscription) Live.text));
    destruct (Live.is_true (Live.opt (Live.serverContent message) Live.turnComplete)
              || Live.is_true (Live.opt (Live.serverContent message) Live.interrupted));
    destruct (Live.truthy _) as [d|];
    unfold bind, ret, try_catch, exec; cbn [fst snd];
    rewrite ?PlayerFacts.stop_spec; cbn [fst snd];
    try reflexivity;
    match goal with
    | |- context [Player.play _ _ d ?q] =>
        destruct (play_cases q d)
          as [[e [-> _]]|[[_ ->]|[ctx [b [_ [_ ->]]]]]]; reflexivity
    end.
Qed.

(** X14.  The message handler never throws back into the session, even
    when the audio payload is not base64 or not PCM; and a message without
    a turn boundary whose payload is absent or does not decode leaves the
    scheduler exactly as it was. *)
Theorem inbound_message_never_throws message p :
  result (deliver message) p = Return tt
  /\ (Live.turn_boundary message = false ->
      Live.first_part_audio message = None ->
      exec (deliver message) p = p)
  /\ (Live.turn_boundary message = false ->
      forall d e, Live.first_part_audio message = Some d ->
                  result (play d) p = Throw e ->
                  exec (deliver message) p = p).
Proof.
  unfold result at 1, exec. rewrite deliver_spec. cbn [fst snd].
  repeat split.
  - intros -> ->. reflexivity.
  - intros -> d e -> He. cbn zeta.
    destruct (play_cases p d)
      as [[e' [Hp _]]|[[_ Hp]|[ctx [b [_ [_ Hp]]]]]];
      unfold result in He; unfold exec; rewrite Hp in *; cbn [fst snd] in *;
      try discriminate He; reflexivity.
Qed.

(** X15.  A message that ends the turn and carries audio stops the queue
    first and plays its audio after: the units tracked before are asked to
    halt, and the new unit starts at the device clock and is the only one
    tracked. *)
Theorem turn_end_keeps_its_audio p ctx message d b :
  audioContextRef p = Some ctx ->
  Live.turn_boundary message = true ->
  Live.first_part_audio message = Some d ->
  prepare d = Return b ->
  let p' := exec (deliver message) p in
  exists c,
    started p' = c :: started p
    /\ when c = currentTime ctx
    /\ buffer (unit_started c) = b
    /\ sourceNodesRef p' = [unit_started c]
    /\ isPlaying p' = true
    /\ (forall node, In node (sourceNodesRef p) ->
                     stop_raises node = false -> In node (halted p')).
Proof.
  intros Hctx Hturn Haudio Hb p'. subst p'.
  unfold exec. rewrite deliver_spec, Hturn, Haudio. cbn [snd]. cbn zeta.
  pose proof (f_equal snd (PlayerFacts.stop_spec stop_raises p)) as Hstop.
  cbn [snd] in Hstop. rewrite Hctx in Hstop.
  unfold exec. rewrite Hstop.
  match goal with
  | |- context [Player.play _ _ _ ?q] =>
      rewrite (PlayerFacts.play_spec sampleRate_arg createBuffer q ctx d)
        by reflexivity
  end.
  rewrite Hb. cbn [snd]. unfold scheduled. cbn.
  rewrite PlayerFacts.ltb_irrefl.
  eexists. do 5 (split; [reflexivity|]).
  intros node Hin Hok. apply in_or_app. left. apply in_rev.
  rewrite rev_involutive. apply filter_In. split; [exact Hin|].
  now rewrite Hok.
Qed.

End Hook.

Lemma nothing_before_init_witness :
  history 24000%float webaudio_createBuffer (fun _ => false)
    [Play three_samples; Tick 1%float; Stop; Play odd_chunk]
  = initial.
Proof.
  apply (nothing_before_init 24000%float webaudio_createBuffer (fun _ => false)).
  cbn. intuition discriminate.
Defined.

Lemma play_rejects_cleanly_witness :
  result (play 24000%float webaudio_createBuffer odd_chunk) ready = Throw RangeError
  /\ exec (play 24000%float webaudio_createBuffer odd_chunk) ready = ready
  /\ prepare 24000%float webaudio_createBuffer odd_chunk = Throw RangeError.
Proof.
  assert (H : result (play 24000%float webaudio_createBuffer odd_chunk) ready
              = Throw RangeError) by (vm_compute; reflexivity).
  split; [exact H|].
  exact (play_rejects_cleanly 24000%float webaudio_createBuffer
           ready odd_chunk RangeError H).
Defined.

Lemma stop_flushes_queue_witness :
  exists c,
    started (exec (play 24000%float webaudio_createBuffer three_samples)
               (tick 5%float (exec (stop (fun _ => false)) late)))
    = c :: started late
    /\ when c = 5%float.
Proof.
  destruct (stop_flushes_queue 24000%float webaudio_createBuffer (fun _ => false)
              late {| currentTime := 2%float; suspended := false |} 5%float
              three_samples three_samples_buffer
              ltac:(vm_compute; reflexivity) ltac:(vm_compute; reflexivity))
    as [c [Hstarted [Hwhen _]]].
  exists c. split; [exact Hstarted|]. rewrite Hwhen. vm_compute. reflexivity.
Defined.

Lemma played_unit_ends_witness :
  let p := history 24000%float webaudio_createBuffer (fun _ => false)
             [Init; Play three_samples] in
  let source := {| node_id := 1; buffer := three_samples_buffer |} in
  sourceNodesRef
    (perform 24000%float webaudio_createBuffer (fun _ => false)
       (perform 24000%float webaudio_createBuffer (fun _ => false) p
          (Play three_samples))
       (Ended source))
  = sourceNodesRef p.
Proof.
  intros p source.
  destruct (played_unit_ends 24000%float webaudio_createBuffer (fun _ => false)
              [Init; Play three_samples]
              {| currentTime := 0%float; suspended := false |}
              three_samples three_samples_buffer
              ltac:(vm_compute; reflexivity) ltac:(vm_compute; reflexivity))
    as [_ [Htracked _]].
  exact Htracked.
Defined.

Lemma play_decodes_pcm_witness :
  Forall int16 [0; -32768; 32767]%Z
  /\ prepare 24000%float webaudio_createBuffer (pcm_chunk [0; -32768; 32767]%Z)
     = Return {| numberOfChannels := 1; frames := 3; sampleRate := 24000%float;
                 duration := (float_of_N 3 / 24000)%float;
                 channelData := [Dyadic 0 (-15); Dyadic (-32768) (-15);
                                 Dyadic 32767 (-15)] |}.
Proof.
  assert (H : Forall int16 [0; -32768; 32767]%Z).
  { repeat constructor; unfold int16; cbn; discriminate. }
  split; [exact H|].
  rewrite (play_decodes_pcm 24000%float webaudio_createBuffer _ H).
  vm_compute. reflexivity.
Defined.

Lemma turn_end_keeps_its_audio_witness :
  exists c,
    started (exec (deliver 24000%float webaudio_createBuffer (fun _ => false)
                     closing_message) late)
    = c :: started late
    /\ when c = 2%float
    /\ sourceNodesRef (exec (deliver 24000%float webaudio_createBuffer
                               (fun _ => false) closing_message) late)
       = [unit_started c].
Proof.
  destruct (turn_end_keeps_its_audio 24000%float webaudio_createBuffer
              (fun _ => false) late
              {| currentTime := 2%float; suspended := false |}
              closing_message three_samples three_samples_buffer
              ltac:(vm_compute; reflexivity) eq_refl eq_refl
              ltac:(vm_compute; reflexivity))
    as [c [Hstarted [Hwhen [_ [Htracked _]]]]].
  exists c. repeat split; assumption.
Defined.

End TimelineFacts.

(* ================================================================== *)
(** * More about the session: refusal and disconnection                 *)
(* ================================================================== *)

Module ConnectionFacts.

Import Live Connection.
Local Open Scope string_scope.


(** Sending one chunk, by the state of the session promise. *)
Lemma send_spec transport chunk s :
  snd (sendAudioChunk transport chunk s)
  = match sessionPromise s with
    | Some (Fulfilled session) =>
        {| sessionPromise := sessionPromise s;
           console := (console s ++ complaint transport session chunk)%list;
           wire := (wire s
                    ++ (if accepted transport session chunk
                        then [(session, realtime_input chunk)] else []))%list |}
    | Some (Rejected e) =>
        {| sessionPromise := sessionPromise s;
           console := (console s ++ [ConsoleError "Error sending audio chunk" e])%list;
           wire := wire s |}
    | _ => s
    end.
Proof.
  unfold sendAudioChunk, accepted, complaint.
  destruct s as [[[|session|e]|] log w]; cbn; try reflexivity.
  unfold realtime_input, settle, try_catch, bind, lift, sendRealtimeInput,
    console_error, modify.
  destruct (transport session _); cbn; now rewrite !app_nil_r.
Qed.

Lemma capture_cons transport isMicOn f frames s :
  capture transport isMicOn (f :: frames) s
  = capture transport isMicOn frames
      (handleAudioData transport isMicOn (Codec.onaudioprocess f) s).
Proof. reflexivity. Qed.



(** X17.  A refused connection is not forgotten: after it, every captured
    frame puts nothing on the wire and writes the refusal to the console
    once more, one entry per frame; the rejected promise stays. *)
Theorem refused_session_logs_each_frame transport e frames c :
  let s := service (snd (connect (Return (Rejected e)) c)) in
  let s' := capture transport true frames s in
  wire s' = wire (service c)
  /\ console s'
     = (console (service c)
        ++ map (fun _ => ConsoleError "Error sending audio chunk" e) frames)%list
  /\ sessionPromise s' = Some (Rejected e).
Proof.
  cbn zeta. cbn [connect await set_sessionPromise onError snd service].
  generalize (console (service c)) as log.
  induction frames as [|f frames IH]; intro log.
  - cbn. now rewrite app_nil_r.
  - rewrite capture_cons.
    unfold handleAudioData. rewrite send_spec. cbn [sessionPromise console wire].
    destruct (IH (log ++ [ConsoleError "Error sending audio chunk" e])%list)
      as [Hw [Hc Hp]].
    rewrite Hw, Hc, Hp. cbn [map]. now rewrite <- app_assoc.
Qed.

(** X18.  After [disconnect], in whatever state the session was, captured
    frames change nothing: nothing is sent and nothing is logged, however
    many frames follow.  [disconnect] itself touches neither the wire nor
    the console, and a second one changes nothing. *)
Theorem disconnected_session_is_silent transport isMicOn frames s :
  capture transport isMicOn frames (disconnect s) = disconnect s
  /\ disconnect (disconnect s) = disconnect s
  /\ wire (disconnect s) = wire s
  /\ console (disconnect s) = console s.
Proof.
  repeat split.
  induction frames as [|f frames IH]; [reflexivity|].
  rewrite capture_cons.
  unfold handleAudioData. destruct isMicOn; [|exact IH].
  rewrite send_spec. exact IH.
Qed.



End ConnectionFacts.


(* ================================================================== *)
(** * Facts about the capture pipeline                                  *)
(* ================================================================== *)

Module CaptureFacts.

Import Capture.
Local Open Scope string_scope.

Section Platform.

Variable raises : list Call -> Step -> option exn.

Local Abbreviation start := (Capture.start raises).
Local Abbreviation rerun := (Capture.rerun raises).
Local Abbreviation life := (Capture.life raises).

(** [stop], state to state: each ref that holds something gets its
    teardown call, in the order processor, source, gain, context. *)
Lemma capture_stop_spec g :
  stop g =
    (Return tt,
     {| audioContextRef := None; processorRef := None; sourceRef := None;
        gainNodeRef := None; objects := objects g;
        calls := (map ContextClosed (held (audioContextRef g))
                  ++ map Disconnected (held (gainNodeRef g))
                  ++ map Disconnected (held (sourceRef g))
                  ++ map Disconnected (held (processorRef g))
                  ++ calls g)%list;
        console := console g |}).
Proof.
  destruct g as [[c|] [p|] [s|] [n|] o l k]; reflexivity.
Qed.

Ltac decide_ids :=
  repeat (cbn; rewrite ?Nat.eqb_refl; cbn;
          try match goal with
              | |- context [Nat.eqb ?a ?b] =>
                  destruct (Nat.eqb_spec a b); subst
              end).

Lemma stop_releases g :
  tidy g ->
  released (exec stop g)
  /\ open_contexts (calls (exec stop g)) = []
  /\ wired_nodes (calls (exec stop g)) = [].
Proof.
  intros [Hopen [Hwired _]]. unfold exec. rewrite capture_stop_spec. cbn [snd calls].
  split; [repeat split|].
  destruct (audioContextRef g) as [c|], (gainNodeRef g) as [n|],
    (sourceRef g) as [s|], (processorRef g) as [p|];
    cbn [held map app] in *; cbn [open_contexts wired_nodes];
    rewrite Hopen, Hwired; split; decide_ids; reflexivity.
Qed.

(** From a released graph with nothing open, [start] never throws and
    leaves a tidy graph, at whichever step the platform fails. *)
Lemma start_tidy activeStream g :
  released g ->
  open_contexts (calls g) = [] ->
  wired_nodes (calls g) = [] ->
  result (start activeStream) g = Return tt
  /\ tidy (exec (start activeStream) g).
Proof.
  intros [Hc [Hp [Hs Hn]]] Hopen Hwired.
  destruct g as [c p s n o l k]. cbn in Hc, Hp, Hs, Hn, Hopen, Hwired. subst.
  unfold result, exec, Capture.start, try_catch, bind, attempt, fresh, call,
    modify, console_error.
  cbn.
  repeat match goal with
         | |- context [raises ?calls ?step] =>
             destruct (raises calls step); cbn
         end;
    (split; [reflexivity|]);
    unfold tidy; cbn; rewrite ?Hopen, ?Hwired; repeat split;
    repeat constructor; cbn; intuition lia.
Qed.

Lemma rerun_tidy g deps : tidy g -> tidy (rerun g deps).
Proof.
  intro Hg. destruct (stop_releases g Hg) as [Hrel [Hopen Hwired]].
  unfold Capture.rerun, cleanup, effect.
  assert (Hstop : tidy (exec stop (exec stop g))).
  { unfold exec at 1. rewrite capture_stop_spec. cbn [snd].
    destruct Hrel as [-> [-> [-> ->]]]. unfold tidy. cbn.
    rewrite Hopen, Hwired. repeat split. constructor. }
  destruct deps as [isActive [[active]|]]; cbn [fst snd]; [|exact Hstop].
  destruct (isActive && Capture.active {| active := active |}); [|exact Hstop].
  now apply start_tidy.
Qed.

(** X19.  Through any series of dependency changes and whatever the
    platform raises, the capture hook holds exactly what is open: the only
    open context and the only wired nodes are the ones its refs hold (so at
    most one context is ever open), and after the cleanup nothing is open,
    nothing is wired and every ref is null. *)
Theorem capture_holds_what_is_open renders :
  let g := life renders in
  tidy g
  /\ (List.length (open_contexts (calls g)) <= 1)%nat
  /\ released (exec cleanup g)
  /\ open_contexts (calls (exec cleanup g)) = []
  /\ wired_nodes (calls (exec cleanup g)) = [].
Proof.
  intro g.
  assert (Hg : tidy g).
  { subst g. unfold Capture.life.
    assert (H : forall l g0, tidy g0 -> tidy (fold_left rerun l g0)).
    { induction l as [|d l IH]; intros g0 H0; [exact H0|].
      cbn. apply IH. now apply rerun_tidy. }
    apply H. repeat split. constructor. }
  split; [exact Hg|]. split.
  - destruct Hg as [-> _]. destruct (audioContextRef g); cbn; lia.
  - now apply stop_releases.
Qed.

(** X20.  [stop] can be called in any state and any number of times: it
    returns normally, leaves every ref null, makes one teardown call per
    ref that held something and none when called again or before
    [start]. *)
Theorem capture_stop_idempotent g :
  result stop g = Return tt
  /\ released (exec stop g)
  /\ exec stop (exec stop g) = exec stop g
  /\ (released g -> exec stop g = g)
  /\ List.length (calls (exec stop g))
     = (List.length (held (audioContextRef g)) + List.length (held (gainNodeRef g))
        + List.length (held (sourceRef g)) + List.length (held (processorRef g))
        + List.length (calls g))%nat.
Proof.
  unfold result, exec. rewrite (capture_stop_spec (snd (stop g))), !capture_stop_spec.
  cbn [fst snd audioContextRef processorRef sourceRef gainNodeRef calls
       objects console held map app].
  repeat split.
  - intros [Hc [Hp [Hs Hn]]]. destruct g as [c p s n o l k].
    cbn in *. subst. reflexivity.
  - rewrite !length_app, !length_map. lia.
Qed.

(** X21.  [start] never throws.  Either it builds the whole graph, with
    the gain node set to 0 as the only node connected to the destination,
    a 4096-frame mono processor and a 16 kHz context, and logs nothing; or
    it stops at the first platform failure, writes it to the console, and
    has connected nothing to the destination. *)
Theorem start_builds_or_logs activeStream g :
  let g' := exec (start activeStream) g in
  result (start activeStream) g = Return tt
  /\ ((console g' = console g
       /\ exists ctx source processor gain,
            audioContextRef g' = Some ctx /\ sourceRef g' = Some source
            /\ processorRef g' = Some processor /\ gainNodeRef g' = Some gain
            /\ calls g'
               = (Connected gain None
                  :: Connected processor (Some gain)
                  :: GainSet gain 0
                  :: GainCreated gain
                  :: Connected source (Some processor)
                  :: HandlerInstalled processor
                  :: ProcessorCreated processor 4096 1 1
                  :: SourceCreated source
                  :: ContextCreated ctx 16000
                  :: calls g)%list)
      \/ (exists e, console g'
                    = (console g ++ [("Audio processing setup failed", e)])%list
                    /\ forall n, In (Connected n None) (calls g') ->
                                 In (Connected n None) (calls g))).
Proof.
  intro g'. subst g'.
  unfold result, exec, Capture.start, try_catch, bind, attempt, fresh, call,
    modify, console_error.
  cbn.
  repeat match goal with
         | |- context [raises ?calls ?step] =>
             destruct (raises calls step) as [?e|]; cbn
         end;
    (split; [reflexivity|]);
    try (left; split; [reflexivity|]; do 4 eexists; repeat split; fail);
    right; eexists; (split; [reflexivity|]);
    intros n Hn; cbn in Hn; intuition discriminate.
Qed.

End Platform.

End CaptureFacts.
